(** * AnimatedNftMaker: the combination generation engine

    A shallow embedding of [TraitSelector] (src/core/TraitSelector.ts) and of
    the parts of [LayerProcessor] (src/core/LayerProcessor.ts) it relies on,
    with the properties of the engine proved over the embedding.

    Conventions of the embedding.
    - JavaScript strings are [string]; numbers that count things are [nat];
      trait weights and the value of [Math.random()] are exact rationals [Q].
    - Arrays that the program shares between objects (the per-category trait
      lists cached by [LayerProcessor] and by [TraitSelector]) live in a heap
      of arrays and are referred to by location, so that a [push] through one
      reference is seen through every other one.
    - [Math.random] is an oracle: an infinite sequence of draws and a cursor.
    - An [async] method is a computation in a state-and-exception monad; the
      attempts of one round are run one after the other in launch order, and
      [Promise.allSettled] collects how each of them settled. *)

From Stdlib Require Import QArith Lqa Ascii String Sorted.
From stdpp Require Import base option list gmap strings.

Local Open Scope string_scope.
Local Open Scope list_scope.
Set Warnings "-register-all,-clear-no-such-hyp".

(** ** JavaScript string primitives *)

Module JS.

(** [s.split(sep)] for a one-character separator: never empty. *)
Fixpoint split (sep : ascii) (s : string) : list string :=
  match s with
  | EmptyString => [EmptyString]
  | String c rest =>
      if Ascii.eqb c sep then EmptyString :: split sep rest
      else match split sep rest with
           | [] => [String c EmptyString]
           | piece :: pieces => String c piece :: pieces
           end
  end.

(** White space removed by [trim] (the code points below 128). *)
Definition isWhiteSpace (c : ascii) : bool :=
  let n := nat_of_ascii c in
  (n =? 9)%nat || (n =? 10)%nat || (n =? 11)%nat || (n =? 12)%nat
  || (n =? 13)%nat || (n =? 32)%nat.

Fixpoint trimStart (s : string) : string :=
  match s with
  | EmptyString => EmptyString
  | String c rest => if isWhiteSpace c then trimStart rest else s
  end.

Fixpoint trimEnd (s : string) : string :=
  match s with
  | EmptyString => EmptyString
  | String c rest =>
      match trimEnd rest with
      | EmptyString => if isWhiteSpace c then EmptyString else String c EmptyString
      | rest' => String c rest'
      end
  end.

Definition trim (s : string) : string := trimEnd (trimStart s).

(** Truthiness of a string: only the empty string is falsy. *)
Definition truthy (s : string) : bool := negb (String.eqb s "").

(** [a || b] on strings. *)
Definition or_else (a b : string) : string := if truthy a then a else b.

(** [xs.includes(x)] on an array of strings. *)
Definition includes (xs : list string) (x : string) : bool :=
  existsb (String.eqb x) xs.

(** [xs.join(sep)]. *)
Definition join (sep : string) (xs : list string) : string := String.concat sep xs.

(** [xs.sort()] with the default comparison of strings, as an insertion
    sort: the result is the ordered arrangement of the same strings. *)
Fixpoint sort_insert (x : string) (xs : list string) : list string :=
  match xs with
  | [] => [x]
  | y :: ys => if String.leb x y then x :: xs else y :: sort_insert x ys
  end.

Definition sort (xs : list string) : list string := foldr sort_insert [] xs.

(** [String(xs)] for an array of strings. *)
Definition String_of_array (xs : list string) : string := join "," xs.

End JS.

(** ** Data model (src/types/traits.ts, src/types/errors.ts, src/types/config.ts) *)

Record Trait := mkTrait {
  type : string;
  name : string;
  weight : Q;
  path : string;
  frames : list string
}.

(** The fields of a combination that generation reads or writes; [rarity],
    [metadata] and [generatedAt] are derived from [id] and [traits] and are
    not read back by the generator. *)
Record TraitCombination := mkTraitCombination {
  id : nat;
  traits : list Trait
}.

(** A node of [TraitHierarchy]: a leaf holds frames, a container holds
    [subTraits]; entries are kept in [Object.entries] order. *)
Inductive TraitNode :=
| Node (nweight : Q) (npath : string) (nframes : list string)
       (subTraits : option (list (string * TraitNode))).

Inductive ErrorType :=
| VALIDATION_ERROR | PROCESSING_ERROR | FILE_ERROR | CONFIG_ERROR
| DUPLICATE_ERROR | MEMORY_ERROR | GPU_ERROR | WORKER_ERROR.

(** The [context] argument of an error: an object with boolean fields. *)
Definition ErrorContext := list (string * bool).

Record GeneratorError := mkGeneratorError {
  etype : ErrorType;
  message : string;
  context : option ErrorContext;
  recoverable : bool
}.

(** [new GeneratorError(type, message, context?, recoverable = false)]. *)
Definition new_GeneratorError (ty : ErrorType) (msg : string)
    (ctx : option ErrorContext) (rec : option bool) : GeneratorError :=
  {| etype := ty; message := msg; context := ctx;
     recoverable := match rec with Some b => b | None => false end |}.

(** The rule tables of [GeneratorConfig]; an absent table is [None].  Tables
    that the code iterates with [Object.entries] are lists of entries;
    [incompatible_traits] is only looked up by key. *)
Record GeneratorConfig := mkConfig {
  trait_processing_order : list string;
  incompatible_traits : option (gmap string (list string));
  forced_pairings : option (list (string * list string));
  dependent_traits : option (list (string * string));
  exclusive_groups : option (list (string * list string));
  conditional_rarity : option (list (string * list (string * Q)))
}.

(** ** LayerProcessor: the frames of a leaf *)

(** [VALIDATION_RULES.SUPPORTED_IMAGE_FORMATS] (src/constants/validation.ts). *)
Definition SUPPORTED_IMAGE_FORMATS : list string := [".png"].

(** [s.toLowerCase()] on the letters A to Z. *)
Definition toLowerCase_char (c : ascii) : ascii :=
  let n := nat_of_ascii c in
  if (65 <=? n)%nat && (n <=? 90)%nat then ascii_of_nat (n + 32) else c.

Fixpoint toLowerCase (s : string) : string :=
  match s with
  | EmptyString => EmptyString
  | String c rest => String (toLowerCase_char c) (toLowerCase rest)
  end.

(** [s.endsWith(suffix)]. *)
Fixpoint endsWith (s suffix : string) : bool :=
  String.eqb s suffix
  || match s with
     | EmptyString => false
     | String _ rest => endsWith rest suffix
     end.

Definition isDigit (c : ascii) : bool :=
  let n := nat_of_ascii c in (48 <=? n)%nat && (n <=? 57)%nat.

(** The first match of [/(\d+)\./] in [s]: the first run of digits that a
    dot follows; [run] is the value of the digits read so far in the current
    run. *)
Fixpoint firstNumberBeforeDot (s : string) (run : option nat) : option nat :=
  match s with
  | EmptyString => None
  | String c rest =>
      if isDigit c
      then firstNumberBeforeDot rest
             (Some (10 * default 0%nat run + (nat_of_ascii c - 48))%nat)
      else if Ascii.eqb c "."
           then match run with
                | Some n => Some n
                | None => firstNumberBeforeDot rest None
                end
           else firstNumberBeforeDot rest None
  end.

(** [getNumber] of the comparator in [getImageFiles]. *)
Definition getNumber (filename : string) : nat :=
  default 0%nat (firstNumberBeforeDot filename None).

(** [entries.sort((a, b) => getNumber(a) - getNumber(b))]: a stable sort by
    [getNumber], as an insertion sort. *)
Fixpoint insertByNumber (x : string) (xs : list string) : list string :=
  match xs with
  | [] => [x]
  | y :: ys =>
      if (getNumber x <=? getNumber y)%nat then x :: xs
      else y :: insertByNumber x ys
  end.

(** [getImageFiles], given the entries that [fs.readdir] lists. *)
Definition getImageFiles (entries : list string) : list string :=
  foldr insertByNumber []
    (List.filter
       (fun entry => existsb (endsWith (toLowerCase entry)) SUPPORTED_IMAGE_FORMATS)
       entries).

(** ** LayerProcessor: frame normalisation *)

(** The body of the [for] loop of [loopFramesToRequiredCount], for the
    indices [i], [i+1], ..., [i+n-1]. *)
Fixpoint loopFrames (originalFrames : list string) (i n : nat) : list string :=
  match n with
  | O => []
  | S n' =>
      let frameIndex := i mod length originalFrames in
      match originalFrames !! frameIndex with
      | Some frame =>
          if JS.truthy frame then frame :: loopFrames originalFrames (S i) n'
          else loopFrames originalFrames (S i) n'
      | None => loopFrames originalFrames (S i) n'
      end
  end.

Definition loopFramesToRequiredCount (requiredFrameCount : nat)
    (originalFrames : list string) : list string :=
  if (length originalFrames =? 0)%nat then []
  else if (requiredFrameCount <=? length originalFrames)%nat
       then take requiredFrameCount originalFrames
       else loopFrames originalFrames 0 requiredFrameCount.

(** ** The shared store *)

(** A location in the heap of trait arrays. *)
Abbreviation loc := nat (only parsing).

(** [LayerProcessor]: the outcome of [validateStructure] (absent before it
    ran), the parsed hierarchy and the per-category cache of trait arrays. *)
Record LayerProcessor := mkLayerProcessor {
  validationResult : option bool;
  hierarchy : gmap string (list (string * TraitNode));
  lp_traitCache : gmap string loc
}.

(** Everything an attempt can read or write: the heap of arrays, the layer
    processor, the selector's own [traitCache], and the random oracle. *)
Record World := mkWorld {
  heap : list (list Trait);
  layerProcessor : LayerProcessor;
  traitCache : gmap string loc;
  random_draws : nat -> Q;
  random_cursor : nat
}.

(** How a computation ends: with a value, or by throwing. *)
Inductive Outcome (A : Type) :=
| Ok (a : A)
| Throw (e : GeneratorError).
Arguments Ok {A} a.
Arguments Throw {A} e.

(** Computations over the world that may throw. *)
Definition M (A : Type) : Type := World -> Outcome A * World.

Definition ret {A} (a : A) : M A := fun w => (Ok a, w).

Definition throw {A} (e : GeneratorError) : M A := fun w => (Throw e, w).

Definition bind {A B} (m : M A) (k : A -> M B) : M B :=
  fun w => match m w with
           | (Ok a, w') => k a w'
           | (Throw e, w') => (Throw e, w')
           end.

Notation "x <- m ;; k" := (bind m (fun x => k))
  (at level 100, m at next level, right associativity).
Notation "m ;;; k" := (bind m (fun _ => k))
  (at level 100, right associativity).

(** [Math.random()]. *)
Definition Math_random : M Q :=
  fun w => (Ok (random_draws w (random_cursor w)),
            mkWorld (heap w) (layerProcessor w) (traitCache w)
                    (random_draws w) (S (random_cursor w))).

(** A fresh array with the given contents. *)
Definition allocArray (arr : list Trait) : M loc :=
  fun w => (Ok (length (heap w)),
            mkWorld (heap w ++ [arr]) (layerProcessor w) (traitCache w)
                    (random_draws w) (random_cursor w)).

(** The current contents of an array. *)
Definition readArray (l : loc) : M (list Trait) :=
  fun w => (Ok (default [] (heap w !! l)), w).

(** [arr.push(t)]: in place, seen through every reference to the array. *)
Definition pushArray (l : loc) (t : Trait) : M unit :=
  fun w => (Ok tt,
            mkWorld (alter (fun arr => arr ++ [t]) l (heap w)) (layerProcessor w)
                    (traitCache w) (random_draws w) (random_cursor w)).

Definition getLayerProcessor : M LayerProcessor := fun w => (Ok (layerProcessor w), w).

(** [layerProcessor.traitCache.set(traitType, l)]. *)
Definition lp_cache_set (traitType : string) (l : loc) : M unit :=
  fun w => (Ok tt,
            mkWorld (heap w)
              (mkLayerProcessor (validationResult (layerProcessor w))
                 (hierarchy (layerProcessor w))
                 (<[traitType := l]> (lp_traitCache (layerProcessor w))))
              (traitCache w) (random_draws w) (random_cursor w)).

(** [this.traitCache.get(traitType)] and [this.traitCache.set(traitType, l)]
    of the selector. *)
Definition ts_cache_get (traitType : string) : M (option loc) :=
  fun w => (Ok (traitCache w !! traitType), w).

Definition ts_cache_set (traitType : string) (l : loc) : M unit :=
  fun w => (Ok tt,
            mkWorld (heap w) (layerProcessor w) (<[traitType := l]> (traitCache w))
                    (random_draws w) (random_cursor w)).

(** ** LayerProcessor.getAvailableTraits *)

(** [collectLeafTraits]: the leaves under [traitData], in entry order, each
    tagged with the category [traitType]. *)
Fixpoint collectLeafTraits_node (traitType traitName : string) (traitObj : TraitNode)
    : list Trait :=
  match traitObj with
  | Node w p fr sub =>
      if (0 <? length fr)%nat
      then [mkTrait traitType traitName w p fr]
      else match sub with
           | Some subs =>
               (fix entries (l : list (string * TraitNode)) : list Trait :=
                  match l with
                  | [] => []
                  | (nm, child) :: rest =>
                      collectLeafTraits_node traitType nm child ++ entries rest
                  end) subs
           | None => []
           end
  end.

Definition collectLeafTraits (traitData : list (string * TraitNode)) (traitType : string)
    : list Trait :=
  flat_map (fun e => collectLeafTraits_node traitType (fst e) (snd e)) traitData.

Definition getAvailableTraits (traitType : string) : M loc :=
  lp <- getLayerProcessor ;;
  match lp_traitCache lp !! traitType with
  | Some cached => ret cached
  | None =>
      if negb (default false (validationResult lp))
      then throw (new_GeneratorError VALIDATION_ERROR
                    "Layer structure must be validated before getting available traits"
                    None None)
      else
        match hierarchy lp !! traitType with
        | None =>
            cachedEmpty <- allocArray [] ;;
            lp_cache_set traitType cachedEmpty ;;;
            allocArray []
        | Some traitTypeTraits =>
            traits <- allocArray (collectLeafTraits traitTypeTraits traitType) ;;
            lp_cache_set traitType traits ;;;
            ret traits
        end
  end.

(** ** TraitSelector: key helpers *)

Record TraitKeys := mkTraitKeys {
  nameOnly : string;
  withType : string
}.

(** [getTraitKeys]: the name up to the first [#], trimmed; [None] stands
    for [null], returned when nothing is left of the name. *)
Definition getTraitKeys (trait : Trait) : option TraitKeys :=
  let cleanName :=
    JS.or_else (JS.trim (hd "" (JS.split "#" (JS.or_else (name trait) "")))) "" in
  if negb (JS.truthy cleanName) then None
  else Some {| nameOnly := cleanName;
               withType := type trait +:+ ":" +:+ cleanName |}.

(** [getTraitNameFromConfigKey]: the part after the first colon when there is
    one, the whole key otherwise. *)
Definition getTraitNameFromConfigKey (key : string) : string :=
  let parts := JS.split ":" key in
  if (1 <? length parts)%nat
  then JS.trim (JS.or_else (nth 1 parts "") "")
  else JS.trim (JS.or_else (nth 0 parts "") "").

(** The callback shared by the trigger tests of the rule methods:
    [keys.withType === key || keys.nameOnly === getTraitNameFromConfigKey(key)]. *)
Definition matchesConfigKey (key : string) (t : Trait) : bool :=
  match getTraitKeys t with
  | None => false
  | Some keys =>
      String.eqb (withType keys) key
      || String.eqb (nameOnly keys) (getTraitNameFromConfigKey key)
  end.

(** The callback of the "already selected" tests:
    [keys.withType === key || keys.nameOnly === wantedName]. *)
Definition matchesKeyOrName (key wantedName : string) (t : Trait) : bool :=
  match getTraitKeys t with
  | None => false
  | Some keys =>
      String.eqb (withType keys) key || String.eqb (nameOnly keys) wantedName
  end.

(** [getCombinationKey]: the canonical signature of a combination. *)
Definition getCombinationKey (combination : TraitCombination) : string :=
  JS.join "|"
    (JS.sort (map (fun t => type t +:+ ":" +:+ hd "" (JS.split "#" (name t)))
                  (traits combination))).

(** ** TraitSelector: the rules *)

(** [rules[keys.withType] || rules[keys.nameOnly]]: an array is truthy, so
    the bare name is consulted only when the compound key has no entry. *)
Definition rulesFor (rules : gmap string (list string)) (keys : TraitKeys)
    : option (list string) :=
  match rules !! withType keys with
  | Some r => Some r
  | None => rules !! nameOnly keys
  end.

(** [rulesOf && (rulesOf.includes(keys.withType) || rulesOf.includes(keys.nameOnly))]. *)
Definition listsTrait (rulesOf : option (list string)) (keys : TraitKeys) : bool :=
  match rulesOf with
  | None => false
  | Some r => JS.includes r (withType keys) || JS.includes r (nameOnly keys)
  end.

(** The callback of [selectedTraits.some] in [applyIncompatibilityRules]. *)
Definition conflictsWith (rules : gmap string (list string)) (traitKeys : TraitKeys)
    (selected : Trait) : bool :=
  match getTraitKeys selected with
  | None => false
  | Some selectedKeys =>
      let selectedRules := rulesFor rules selectedKeys in
      let availableRules := rulesFor rules traitKeys in
      let check1 := listsTrait selectedRules traitKeys in
      let check2 := listsTrait availableRules selectedKeys in
      check1 || check2
  end.

Definition applyIncompatibilityRules (config : GeneratorConfig)
    (availableTraits selectedTraits : list Trait) : list Trait :=
  match incompatible_traits config with
  | None => availableTraits
  | Some rules =>
      List.filter
        (fun trait =>
           match getTraitKeys trait with
           | None => true
           | Some traitKeys =>
               let isExcluded := existsb (conflictsWith rules traitKeys) selectedTraits in
               negb isExcluded
           end)
        availableTraits
  end.

Definition applyExclusiveGroupRules (config : GeneratorConfig) (traitType : string)
    (availableTraits selectedTraits : list Trait) : list Trait :=
  match exclusive_groups config with
  | None => availableTraits
  | Some groups =>
      match List.find (fun e => JS.includes (snd e) traitType) groups with
      | None => availableTraits
      | Some (_, group) =>
          let selectedFromGroup :=
            existsb
              (fun selected =>
                 match getTraitKeys selected with
                 | None => false
                 | Some keys =>
                     JS.includes group (nameOnly keys) || JS.includes group (withType keys)
                 end)
              selectedTraits in
          if selectedFromGroup
          then List.filter
                 (fun trait =>
                    match getTraitKeys trait with
                    | None => true
                    | Some keys =>
                        negb (JS.includes group (nameOnly keys))
                        && negb (JS.includes group (withType keys))
                    end)
                 availableTraits
          else availableTraits
      end
  end.

(** [JSON.parse(JSON.stringify(traits))]: a fresh object per element. *)
Definition JSON_clone (ts : list Trait) : list Trait :=
  map (fun t => mkTrait (type t) (name t) (weight t) (path t) (frames t)) ts.

(** [find] followed by [targetTrait.weight = newWeight]: the first element
    satisfying [p], if any, gets the new weight. *)
Fixpoint setWeightOfFirst (p : Trait -> bool) (newWeight : Q) (ts : list Trait)
    : list Trait :=
  match ts with
  | [] => []
  | t :: rest =>
      if p t then mkTrait (type t) (name t) newWeight (path t) (frames t) :: rest
      else t :: setWeightOfFirst p newWeight rest
  end.

(** The callback of [adjustedTraits.find] in [applyConditionalRarity]; the
    target name is absent when the key has no colon. *)
Definition isRarityTarget (targetKey targetType : string) (targetName : option string)
    (trait : Trait) : bool :=
  match getTraitKeys trait with
  | None => false
  | Some keys =>
      String.eqb (withType keys) targetKey
      || (match targetName with
          | Some n => String.eqb (nameOnly keys) n
          | None => false
          end && String.eqb (type trait) targetType)
  end.

Definition applyConditionalRarity (config : GeneratorConfig)
    (availableTraits selectedTraits : list Trait) : list Trait :=
  match conditional_rarity config with
  | None => availableTraits
  | Some rules =>
      let adjustedTraits := JSON_clone availableTraits in
      fold_left
        (fun adjusted rule =>
           let conditionKey := fst rule in
           let adjustments := snd rule in
           let conditionIsMet := existsb (matchesConfigKey conditionKey) selectedTraits in
           if conditionIsMet
           then fold_left
                  (fun adj adjustment =>
                     let targetKey := fst adjustment in
                     let newWeight := snd adjustment in
                     let parts := JS.split ":" targetKey in
                     let targetType := hd "" parts in
                     let targetName := parts !! 1%nat in
                     setWeightOfFirst (isRarityTarget targetKey targetType targetName)
                                      newWeight adj)
                  adjustments adjusted
           else adjusted)
        rules adjustedTraits
  end.

(** [t.name.split('#')[0] === wanted], the test used to resolve a forced or
    dependent option in the catalog. *)
Definition hasBaseName (wanted : string) (t : Trait) : bool :=
  String.eqb (hd "" (JS.split "#" (name t))) wanted.

(** The [for] loop of [applyForcedPairings] over the entries of
    [forced_pairings]; [None] stands for [null]. *)
Fixpoint applyForcedPairings_entries (entries : list (string * list string))
    (traitType : string) (selectedTraits : list Trait) : M (option Trait) :=
  match entries with
  | [] => ret None
  | (triggerKey, forcedKey) :: rest =>
      let triggerIsSelected := existsb (matchesConfigKey triggerKey) selectedTraits in
      if triggerIsSelected then
        let forcedParts := JS.split ":" (JS.String_of_array forcedKey) in
        let forcedType := nth 0 forcedParts "" in
        let forcedName :=
          if (1 <? length forcedParts)%nat then nth 1 forcedParts ""
          else nth 0 forcedParts "" in
        if String.eqb forcedType traitType then
          let isAlreadySelected :=
            existsb (matchesKeyOrName (JS.String_of_array forcedKey) forcedName)
                    selectedTraits in
          if negb isAlreadySelected then
            availableTraits <- getAvailableTraits traitType ;;
            available <- readArray availableTraits ;;
            match List.find (hasBaseName forcedName) available with
            | Some forcedTrait => ret (Some forcedTrait)
            | None => applyForcedPairings_entries rest traitType selectedTraits
            end
          else applyForcedPairings_entries rest traitType selectedTraits
        else applyForcedPairings_entries rest traitType selectedTraits
      else applyForcedPairings_entries rest traitType selectedTraits
  end.

Definition applyForcedPairings (config : GeneratorConfig) (traitType : string)
    (selectedTraits : list Trait) : M (option Trait) :=
  match forced_pairings config with
  | None => ret None
  | Some entries => applyForcedPairings_entries entries traitType selectedTraits
  end.

(** The [for] loop of [applyDependentTraits].  [dependentTraits] is the
    array declared at the top of the method and returned at its end.  Inside
    the innermost block the source declares a second [dependentTraits], bound
    to the array that [getAvailableTraits] returns; the [push] in that block
    goes to this inner array, here [dependentTraits_inner]. *)
Fixpoint applyDependentTraits_entries (entries : list (string * string))
    (selectedTraits : list Trait) (dependentTraits : list Trait) : M (list Trait) :=
  match entries with
  | [] => ret dependentTraits
  | (triggerKey, dependentKey) :: rest =>
      let triggerIsSelected := existsb (matchesConfigKey triggerKey) selectedTraits in
      if triggerIsSelected then
        let dependentParts := JS.split ":" dependentKey in
        let dependentType := nth 0 dependentParts "" in
        let dependentName :=
          if (1 <? length dependentParts)%nat then nth 1 dependentParts ""
          else nth 0 dependentParts "" in
        let isAlreadySelected :=
          existsb (matchesKeyOrName dependentKey dependentName) selectedTraits in
        if negb isAlreadySelected then
          dependentTraits_inner <- getAvailableTraits (JS.or_else dependentType "") ;;
          candidates <- readArray dependentTraits_inner ;;
          match List.find (hasBaseName dependentName) candidates with
          | Some dependentTrait =>
              pushArray dependentTraits_inner dependentTrait ;;;
              applyDependentTraits_entries rest selectedTraits dependentTraits
          | None => applyDependentTraits_entries rest selectedTraits dependentTraits
          end
        else applyDependentTraits_entries rest selectedTraits dependentTraits
      else applyDependentTraits_entries rest selectedTraits dependentTraits
  end.

Definition applyDependentTraits (config : GeneratorConfig) (selectedTraits : list Trait)
    : M (list Trait) :=
  let dependentTraits := [] in
  match dependent_traits config with
  | None => ret dependentTraits
  | Some entries => applyDependentTraits_entries entries selectedTraits dependentTraits
  end.

(** The scan of [weightedRandomSelect]: subtract weights until the running
    remainder is no longer positive; [None] when the scan falls through. *)
Fixpoint weightedScan (random : Q) (traits : list Trait) : option Trait :=
  match traits with
  | [] => None
  | trait :: rest =>
      let random' := (random - weight trait)%Q in
      if Qle_bool random' 0 then Some trait else weightedScan random' rest
  end.

Definition weightedRandomSelect (traits : list Trait) : M Trait :=
  match traits with
  | [] => throw (new_GeneratorError PROCESSING_ERROR
                   "No traits available for selection" None None)
  | [only] => ret only
  | first :: _ =>
      let totalWeight := fold_left (fun sum trait => (sum + weight trait)%Q) traits 0%Q in
      r <- Math_random ;;
      match weightedScan (r * totalWeight)%Q traits with
      | Some trait => ret trait
      | None => ret (List.last traits first)
      end
  end.

Definition createTraitCombination (id : nat) (traits : list Trait) : TraitCombination :=
  {| id := id; traits := traits |}.

(** One iteration of the [for] loop of [generateSingleCombination]: the
    selection after the category [traitType] has been handled. *)
Definition selectForLayer (config : GeneratorConfig) (traitType : string)
    (selectedTraits : list Trait) : M (list Trait) :=
  cached <- ts_cache_get traitType ;;
  traits <- match cached with
            | Some l => ret l
            | None =>
                l <- getAvailableTraits traitType ;;
                ts_cache_set traitType l ;;;
                ret l
            end ;;
  forcedTrait <- applyForcedPairings config traitType selectedTraits ;;
  match forcedTrait with
  | Some forced => ret (selectedTraits ++ [forced])
  | None =>
      dependentTraits <- applyDependentTraits config selectedTraits ;;
      let selectedTraits :=
        if (0 <? length dependentTraits)%nat then selectedTraits ++ dependentTraits
        else selectedTraits in
      if (0 <? length dependentTraits)%nat
         && existsb (fun t => String.eqb (type t) traitType) dependentTraits
      then ret selectedTraits
      else
        available <- readArray traits ;;
        let traits := applyIncompatibilityRules config available selectedTraits in
        let traits := applyExclusiveGroupRules config traitType traits selectedTraits in
        let traits := applyConditionalRarity config traits selectedTraits in
        if (length traits =? 0)%nat
        then throw (new_GeneratorError PROCESSING_ERROR
                      ("All traits filtered out for layer " +:+ traitType
                         +:+ ". Retrying combination.")
                      (Some [("recoverable", true)]) None)
        else
          selectedTrait <- weightedRandomSelect traits ;;
          ret (selectedTraits ++ [selectedTrait])
  end.

Fixpoint selectLayers (config : GeneratorConfig) (layerOrder : list string)
    (selectedTraits : list Trait) : M (list Trait) :=
  match layerOrder with
  | [] => ret selectedTraits
  | traitType :: rest =>
      selectedTraits' <- selectForLayer config traitType selectedTraits ;;
      selectLayers config rest selectedTraits'
  end.

Definition generateSingleCombination (config : GeneratorConfig) (id : nat)
    : M TraitCombination :=
  let layerOrder := trait_processing_order config in
  selectedTraits <- selectLayers config layerOrder [] ;;
  ret (createTraitCombination id selectedTraits).

(** ** TraitSelector: the batch loop *)

(** An element of the array returned by [Promise.allSettled]. *)
Inductive Settled :=
| Fulfilled (value : TraitCombination)
| Rejected (reason : GeneratorError).

(** How the promise of a computation settles. *)
Definition settle (m : M TraitCombination) (w : World) : Settled * World :=
  match m w with
  | (Ok c, w') => (Fulfilled c, w')
  | (Throw e, w') => (Rejected e, w')
  end.

(** What [generateCombinations] writes to the logger. *)
Inductive LogEntry :=
| LogFatalAttempt (attempt : nat) (error : GeneratorError)
| LogShortfall (generated requested attempts : nat)
| LogCompleted (generated attempts duplicates : nat).

(** The locals of [generateCombinations] together with the selector's
    [usedCombinations] and the log. *)
Record Run := mkRun {
  combinations : list TraitCombination;
  attempts : nat;
  duplicates : nat;
  usedCombinations : gset string;
  log : list LogEntry
}.

(** The body of [for (const result of batchResults)]. *)
Definition processResult (st : Run) (result : Settled) : Run :=
  let attempts := S (attempts st) in
  match result with
  | Fulfilled combination =>
      let key := getCombinationKey combination in
      if bool_decide (key ∈ usedCombinations st)
      then mkRun (combinations st) attempts (S (duplicates st))
                 (usedCombinations st) (log st)
      else mkRun (combinations st ++ [combination]) attempts (duplicates st)
                 ({[key]} ∪ usedCombinations st) (log st)
  | Rejected error =>
      if recoverable error
      then mkRun (combinations st) attempts (duplicates st)
                 (usedCombinations st) (log st)
      else mkRun (combinations st) attempts (duplicates st)
                 (usedCombinations st) (log st ++ [LogFatalAttempt attempts error])
  end.

(** The launch loop of one round and [Promise.allSettled]: attempt [i] of
    the round is started with id [base + i + 1], where [base] is the number of
    accepted combinations when the round starts. *)
Fixpoint launchBatch {W : Type} (attempt : nat -> W -> Settled * W)
    (base i n : nat) (w : W) : list Settled * W :=
  match n with
  | O => ([], w)
  | S n' =>
      let '(result, w1) := attempt (base + i + 1)%nat w in
      let '(results, w2) := launchBatch attempt base (S i) n' w1 in
      (result :: results, w2)
  end.

(** The [while] loop; [fuel] bounds the number of rounds, [None] when it
    runs out before the loop condition fails. *)
Fixpoint generateLoop {W : Type} (attempt : nat -> W -> Settled * W)
    (fuel count batchSize maxAttempts : nat) (st : Run) (w : W) : option (Run * W) :=
  if (length (combinations st) <? count)%nat && (attempts st <? maxAttempts)%nat then
    match fuel with
    | O => None
    | S fuel' =>
        let remaining := (count - length (combinations st))%nat in
        let currentBatchSize := Nat.min batchSize remaining in
        let '(batchResults, w') :=
          launchBatch attempt (length (combinations st)) 0 currentBatchSize w in
        generateLoop attempt fuel' count batchSize maxAttempts
                     (fold_left processResult batchResults st) w'
    end
  else Some (st, w).

(** The two log calls after the loop. *)
Definition finish (count : nat) (st : Run) : Run :=
  let log1 :=
    if (length (combinations st) <? count)%nat
    then log st ++ [LogShortfall (length (combinations st)) count (attempts st)]
    else log st in
  mkRun (combinations st) (attempts st) (duplicates st) (usedCombinations st)
        (log1 ++ [LogCompleted (length (combinations st)) (attempts st) (duplicates st)]).

(** [generateCombinations] over an arbitrary attempt.  Every round adds at
    least one attempt, so [maxAttempts] rounds of fuel are enough for the
    loop to end by its own condition. *)
Definition generateCombinationsWith {W : Type} (attempt : nat -> W -> Settled * W)
    (count : nat) (used : gset string) (w : W) : option (Run * W) :=
  let batchSize := Nat.min 50 count in
  let maxAttempts := (count * 10)%nat in
  match generateLoop attempt maxAttempts count batchSize maxAttempts
                     (mkRun [] 0 0 used []) w with
  | Some (st, w') => Some (finish count st, w')
  | None => None
  end.

(** [generateCombinations(count)] of a selector whose [usedCombinations] is
    [used], in the world [w]. *)
Definition generateCombinations (config : GeneratorConfig) (count : nat)
    (used : gset string) (w : World) : option (Run * World) :=
  generateCombinationsWith (fun id => settle (generateSingleCombination config id))
                           count used w.

(** The attempts with the ids [ids], settled one after the other: what
    [Promise.allSettled] returns for them, and the store they leave. *)
Fixpoint settleAll {W : Type} (attempt : nat -> W -> Settled * W)
    (ids : list nat) (w : W) : list Settled * W :=
  match ids with
  | [] => ([], w)
  | n :: ids' =>
      let '(result, w1) := attempt n w in
      let '(results, w2) := settleAll attempt ids' w1 in
      (result :: results, w2)
  end.

(** The world right after construction and [validateStructure]: nothing
    cached yet. *)
Definition freshWorld (valid : option bool)
    (hier : gmap string (list (string * TraitNode))) (draws : nat -> Q) : World :=
  mkWorld [] (mkLayerProcessor valid hier ∅) ∅ draws 0.

(** ** Predicates used by the statements *)

(** The array at [l] exists and holds traits of category [traitType] only. *)
Definition typed_at (w : World) (traitType : string) (l : loc) : Prop :=
  ∃ arr, heap w !! l = Some arr ∧ Forall (fun t => type t = traitType) arr.

(** Well-formed store: every cached array holds traits of its category. *)
Definition world_ok (w : World) : Prop :=
  (∀ traitType l, lp_traitCache (layerProcessor w) !! traitType = Some l →
                  typed_at w traitType l)
  ∧ (∀ traitType l, traitCache w !! traitType = Some l → typed_at w traitType l).

(** The heap only grows: arrays stay where they are, and an array gains no
    trait that it did not already hold. *)
Definition heap_grows (w w' : World) : Prop :=
  ∀ l arr, heap w !! l = Some arr →
           ∃ arr', heap w' !! l = Some arr' ∧ ∀ t, t ∈ arr' → t ∈ arr.

(** What a computation guarantees when started in [w]: the store stays
    well formed, the heap only grows, and a returned value satisfies [Q]. *)
Definition run_ok {A} (m : M A) (w : World) (Q : A → World → Prop) : Prop :=
  world_ok (m w).2 ∧ heap_grows w (m w).2
  ∧ match (m w).1 with
    | Ok a => Q a (m w).2
    | Throw _ => True
    end.

(** The list that [layerProcessor.getAvailableTraits(traitType)] currently
    returns from its cache, if the category is cached. *)
Definition cachedTraits (w : World) (traitType : string) : option (list Trait) :=
  match lp_traitCache (layerProcessor w) !! traitType with
  | Some l => heap w !! l
  | None => None
  end.

(** The trait [t] is the option [optionName] of [category], up to the
    normalisation of names done by [getTraitKeys]. *)
Definition isOption (category optionName : string) (t : Trait) : Prop :=
  type t = category
  ∧ match getTraitKeys t with
    | Some keys => nameOnly keys = optionName
    | None => False
    end.

(** The key of a trait for the rules: its category and its name. *)
Definition keyOf (t : Trait) : string * string := (type t, name t).

(** The candidate [t] passes the incompatibility filter against [selected]. *)
Definition compatible (config : GeneratorConfig) (selected : list Trait) (t : Trait)
    : Prop :=
  match incompatible_traits config, getTraitKeys t with
  | Some rules, Some keys => existsb (conflictsWith rules keys) selected = false
  | _, _ => True
  end.

(** Every trait of [l] passed the filter against those before it, [pre]
    being what was selected before [l]. *)
Fixpoint prefix_compatible (config : GeneratorConfig) (pre l : list Trait) : Prop :=
  match l with
  | [] => True
  | t :: rest => compatible config pre t ∧ prefix_compatible config (pre ++ [t]) rest
  end.

(** No forced pairing is configured. *)
Definition noForcedPairings (config : GeneratorConfig) : Prop :=
  match forced_pairings config with
  | None => True
  | Some entries => entries = []
  end.

(** What holds of a combination produced by an attempt. *)
Definition well_formed_combination (config : GeneratorConfig) (c : TraitCombination)
    : Prop :=
  type <$> traits c = trait_processing_order config
  ∧ (noForcedPairings config → prefix_compatible config [] (traits c)).

(** The incompatibility relation as the specification words it: a rule
    declared under the compound key or under the bare name of one trait, and
    naming the other trait by its compound key or by its bare name, in either
    direction. *)
Definition declaresAgainst (rules : gmap string (list string)) (a b : TraitKeys)
    : bool :=
  listsTrait (rules !! withType a) b || listsTrait (rules !! nameOnly a) b.

Definition spec_conflict (rules : gmap string (list string)) (selected candidate : Trait)
    : bool :=
  match getTraitKeys selected, getTraitKeys candidate with
  | Some ks, Some kc => declaresAgainst rules ks kc || declaresAgainst rules kc ks
  | _, _ => false
  end.

(** The state in which no two accepted combinations share a signature, all
    accepted signatures are recorded as used, and none was used before. *)
Definition deduplicated (used : gset string) (st : Run) : Prop :=
  NoDup (getCombinationKey <$> combinations st)
  ∧ used ⊆ usedCombinations st
  ∧ ∀ c, c ∈ combinations st →
         getCombinationKey c ∈ usedCombinations st ∧ getCombinationKey c ∉ used.

(** Inside the loop the log holds nothing but fatal-attempt entries, each
    for an error that is not recoverable and numbered by an attempt already
    counted. *)
Definition only_fatal_logged (st : Run) : Prop :=
  ∀ entry, entry ∈ log st →
    ∃ n error, entry = LogFatalAttempt n error ∧ recoverable error = false
               ∧ (1 ≤ n ≤ attempts st)%nat.

(** The entries [processResult] logs for a batch whose first result is
    attempt number [n + 1]: one per rejection that is not recoverable. *)
Fixpoint fatalLog (n : nat) (results : list Settled) : list LogEntry :=
  match results with
  | [] => []
  | Rejected error :: rest =>
      if recoverable error then fatalLog (S n) rest
      else LogFatalAttempt (S n) error :: fatalLog (S n) rest
  | Fulfilled _ :: rest => fatalLog (S n) rest
  end.

(** ** Concrete catalogs and configurations *)

Module Examples.

Definition leaf (p : string) : TraitNode := Node 1 p ["1.png"] None.

Definition trait (category optionName p : string) : Trait :=
  mkTrait category optionName 1 p ["1.png"].

(** bg = {Red, Blue, Green}, body = {Robot}; Red excludes Robot. *)
Definition hierarchy3 : gmap string (list (string * TraitNode)) :=
  <["bg" := [("Red", leaf "layers/bg/Red"); ("Blue", leaf "layers/bg/Blue");
             ("Green", leaf "layers/bg/Green")]]>
    (<["body" := [("Robot", leaf "layers/body/Robot")]]> ∅).

Definition config_incompatible : GeneratorConfig :=
  mkConfig ["bg"; "body"] (Some {["bg:Red" := ["body:Robot"]]}) (Some [])
           None None None.

(** Draws that pick Red, then Blue, then Green out of three equal weights. *)
Definition draws3 (n : nat) : Q := nth n [1 # 10; 1 # 2; 9 # 10] (9 # 10).

Definition world3 : World := freshWorld (Some true) hierarchy3 draws3.

(** bg = {Red} only: one combination exists. *)
Definition hierarchy1 : gmap string (list (string * TraitNode)) :=
  <["bg" := [("Red", leaf "layers/bg/Red")]]> ∅.

Definition config_plain : GeneratorConfig :=
  mkConfig ["bg"] (Some ∅) (Some []) None None None.

Definition world1 : World := freshWorld (Some true) hierarchy1 (fun _ => 0%Q).

(** bg = {Red}, body = {Human, Robot}; Red makes Robot a dependent trait. *)
Definition hierarchy_dep : gmap string (list (string * TraitNode)) :=
  <["bg" := [("Red", leaf "layers/bg/Red")]]>
    (<["body" := [("Human", leaf "layers/body/Human");
                  ("Robot", leaf "layers/body/Robot")]]> ∅).

Definition config_dependent : GeneratorConfig :=
  mkConfig ["bg"; "body"] (Some ∅) (Some []) (Some [("bg:Red", "body:Robot")])
           None None.

Definition world_dep : World := freshWorld (Some true) hierarchy_dep (fun _ => 0%Q).

Definition red : Trait := trait "bg" "Red" "layers/bg/Red".
Definition human : Trait := trait "body" "Human" "layers/body/Human".
Definition robot : Trait := trait "body" "Robot" "layers/body/Robot".

(** Two candidates of weight zero. *)
Definition zeroA : Trait := mkTrait "bg" "A" 0 "layers/bg/A" ["1.png"].
Definition zeroB : Trait := mkTrait "bg" "B" 0 "layers/bg/B" ["1.png"].

(** Red has a rule under its compound key and another under its bare name. *)
Definition rules_shadowed : gmap string (list string) :=
  <["bg:Red" := ["body:Alien"]]> (<["Red" := ["Robot"]]> ∅).

Definition config_shadowed : GeneratorConfig :=
  mkConfig ["bg"; "body"] (Some rules_shadowed) (Some []) None None None.

(** The processing order lists bg twice. *)
Definition config_repeated : GeneratorConfig :=
  mkConfig ["bg"; "bg"] (Some ∅) (Some []) None None None.

(** Red excludes Robot, and Red forces Robot. *)
Definition config_forced : GeneratorConfig :=
  mkConfig ["bg"; "body"] (Some {["bg:Red" := ["body:Robot"]]})
           (Some [("bg:Red", ["body:Robot"])]) None None None.

End Examples.

(** ** Further definitions: the rest of the selector and of the layer processor *)

(** The character [c] occurs in [s]. *)
Definition hasChar (c : ascii) (s : string) : Prop := In c (list_ascii_of_string s).

(** [hasImageFiles], given the entries that [fs.readdir] lists. *)
Definition hasImageFiles (entries : list string) : bool :=
  existsb
    (fun entry => existsb (endsWith (toLowerCase entry)) SUPPORTED_IMAGE_FORMATS)
    entries.

(** The trait [t] is named by the member list [group]: its bare name or its
    compound key is one of the members. *)
Definition inGroup (group : list string) (t : Trait) : Prop :=
  ∃ keys, getTraitKeys t = Some keys
          ∧ (nameOnly keys ∈ group ∨ withType keys ∈ group).

(** Everything of a trait but its weight. *)
Definition withoutWeight (t : Trait) : string * string * string * list string :=
  (type t, name t, path t, frames t).

(** The adjustment keyed [targetKey] of [conditional_rarity] aims at [t]. *)
Definition targetedBy (targetKey : string) (t : Trait) : bool :=
  isRarityTarget targetKey (hd "" (JS.split ":" targetKey))
                 (JS.split ":" targetKey !! 1%nat) t.

(** The log entry reports a fatal attempt. *)
Definition isFatalEntry (entry : LogEntry) : bool :=
  match entry with
  | LogFatalAttempt _ _ => true
  | _ => false
  end.

(** The errors the code constructs: all leave the [recoverable] parameter to
    its default. *)
Definition thrown_by_attempt (e : GeneratorError) : Prop :=
  recoverable e = false
  ∧ (etype e = VALIDATION_ERROR ∨ etype e = PROCESSING_ERROR).

(** Every error the computation [m] can throw satisfies [P]. *)
Definition throws_only {A} (P : GeneratorError → Prop) (m : M A) : Prop :=
  ∀ w e, (m w).1 = Throw e → P e.

(** A relation between the store before and after a step is kept by the
    computation [m]. *)
Definition keeps {A} (R : World → World → Prop) (m : M A) : Prop :=
  ∀ w, R w (m w).2.

(** The catalog after is the catalog before with, at most, traits appended
    to its lists: no cache entry is redirected, no array loses or reorders
    what it held. *)
Definition catalog_extends (w w' : World) : Prop :=
  (∀ traitType l, lp_traitCache (layerProcessor w) !! traitType = Some l →
                  lp_traitCache (layerProcessor w') !! traitType = Some l)
  ∧ (∀ l arr, heap w !! l = Some arr → ∃ extra, heap w' !! l = Some (arr ++ extra)).

(** The catalog after is the catalog before: no cache entry is redirected
    and every array holds what it held. *)
Definition catalog_kept (w w' : World) : Prop :=
  (∀ traitType l, lp_traitCache (layerProcessor w) !! traitType = Some l →
                  lp_traitCache (layerProcessor w') !! traitType = Some l)
  ∧ (∀ l arr, heap w !! l = Some arr → heap w' !! l = Some arr).

(** * Properties *)

(** ** Frame normalisation *)

Section FrameNormalisation.

Variable originalFrames : list string.
Hypothesis some_frames : originalFrames ≠ [].
Hypothesis frames_named : Forall (fun f => JS.truthy f = true) originalFrames.

Lemma cyclic_index_in_range (i : nat) :
  (i mod length originalFrames < length originalFrames)%nat.
Proof using some_frames.
  apply Nat.mod_upper_bound. by intros H%length_zero_iff_nil.
Qed.

Lemma loopFrames_cyclic (i n : nat) :
  loopFrames originalFrames i n
  = (fun j => default "" (originalFrames !! (j mod length originalFrames)%nat))
      <$> seq i n.
Proof using some_frames frames_named.
  revert i. induction n as [|n IH]; intros i; [done|].
  cbn [loopFrames seq fmap list_fmap].
  destruct (lookup_lt_is_Some_2 originalFrames _ (cyclic_index_in_range i)) as [f Hf].
  rewrite Hf. cbn [default].
  rewrite (proj1 (Forall_lookup _ _) frames_named _ _ Hf).
  f_equal. apply IH.
Qed.

Lemma loopFrames_length (n : nat) : length (loopFrames originalFrames 0 n) = n.
Proof using some_frames frames_named.
  by rewrite loopFrames_cyclic, length_fmap, length_seq.
Qed.

Lemma loopFrames_lookup (n i : nat) :
  (i < n)%nat →
  loopFrames originalFrames 0 n !! i
  = originalFrames !! (i mod length originalFrames)%nat.
Proof using some_frames frames_named.
  intros Hi. rewrite loopFrames_cyclic, list_lookup_fmap, lookup_seq_lt by done.
  cbn. destruct (lookup_lt_is_Some_2 originalFrames _ (cyclic_index_in_range i))
    as [f Hf].
  by rewrite Hf.
Qed.

End FrameNormalisation.

(** The frames that [getImageFiles] hands to the normalisation are file
    names ending in a supported extension, so none is the empty string. *)
Lemma endsWith_png_named (s : string) :
  endsWith (toLowerCase s) ".png" = true → JS.truthy s = true.
Proof. by destruct s. Qed.

Lemma insertByNumber_named (x : string) (xs : list string) :
  JS.truthy x = true → Forall (fun f => JS.truthy f = true) xs →
  Forall (fun f => JS.truthy f = true) (insertByNumber x xs).
Proof.
  intros Hx. induction 1 as [|y ys Hy Hys IH]; cbn [insertByNumber].
  - by repeat constructor.
  - destruct (getNumber x <=? getNumber y)%nat; by repeat constructor.
Qed.

Lemma getImageFiles_named (entries : list string) :
  Forall (fun f => JS.truthy f = true) (getImageFiles entries).
Proof.
  unfold getImageFiles. induction entries as [|entry rest IH]; cbn [List.filter].
  - constructor.
  - destruct (existsb _ SUPPORTED_IMAGE_FORMATS) eqn:E; [|exact IH].
    cbn [foldr]. apply insertByNumber_named; [|exact IH].
    cbn in E. rewrite orb_false_r in E. by apply endsWith_png_named.
Qed.

(** Each leaf parsed by [parseTraitType] that has a frame at all gets
    exactly the required number of frames. *)
Lemma parsed_leaf_has_required_frames (r : nat) (entries : list string) :
  getImageFiles entries ≠ [] →
  length (loopFramesToRequiredCount r (getImageFiles entries)) = r.
Proof.
  intros Hne. unfold loopFramesToRequiredCount.
  destruct (Nat.eqb_spec (length (getImageFiles entries)) 0) as [Hz|Hz].
  { by apply length_zero_iff_nil in Hz. }
  destruct (Nat.leb_spec r (length (getImageFiles entries))).
  - rewrite length_take. lia.
  - apply loopFrames_length; [done | apply getImageFiles_named].
Qed.

Example getImageFiles_sorts_by_number :
  getImageFiles ["frame_10.png"; "notes.txt"; "frame_2.PNG"; "frame_1.png"]
  = ["frame_1.png"; "frame_2.PNG"; "frame_10.png"].
Proof. reflexivity. Qed.

(** C10. Frame normalisation: a leaf with [k >= 1] frames (file names, hence
    non-empty strings) and required count [r] is normalised to exactly [r]
    entries: the first [r] frames when [k >= r], and entry [i] equal to
    original [i mod k] when [k < r]; three frames looped to seven give
    [f0,f1,f2,f0,f1,f2,f0]. *)
Theorem C10_frame_normalisation (r : nat) (originalFrames : list string) :
  originalFrames ≠ [] →
  Forall (fun f => JS.truthy f = true) originalFrames →
  let k := length originalFrames in
  let normalized := loopFramesToRequiredCount r originalFrames in
  length normalized = r
  ∧ ((r ≤ k)%nat → normalized = take r originalFrames)
  ∧ ((k < r)%nat →
     ∀ i, (i < r)%nat → normalized !! i = originalFrames !! (i mod k)%nat)
  ∧ (∀ f0 f1 f2, originalFrames = [f0; f1; f2] → r = 7%nat →
                 normalized = [f0; f1; f2; f0; f1; f2; f0]).
Proof.
  intros Hne Hnamed k normalized. subst k normalized.
  unfold loopFramesToRequiredCount.
  destruct (Nat.eqb_spec (length originalFrames) 0) as [Hz|Hz].
  { destruct originalFrames; [done | discriminate]. }
  destruct (Nat.leb_spec r (length originalFrames)) as [Hle|Hlt].
  - split; [rewrite length_take; lia|].
    split; [done|]. split; [lia|].
    intros f0 f1 f2 -> ->. simpl in Hle. lia.
  - split; [by apply loopFrames_length|].
    split; [lia|]. split; [intros _ i Hi; by apply loopFrames_lookup|].
    intros f0 f1 f2 -> ->.
    rewrite loopFrames_cyclic by done. reflexivity.
Qed.

Lemma C10_frame_normalisation_witness :
  let originalFrames := ["f0.png"; "f1.png"; "f2.png"] in
  length (loopFramesToRequiredCount 7 originalFrames) = 7%nat
  ∧ loopFramesToRequiredCount 7 originalFrames
    = ["f0.png"; "f1.png"; "f2.png"; "f0.png"; "f1.png"; "f2.png"; "f0.png"].
Proof.
  intros originalFrames.
  assert (Hne : originalFrames ≠ []) by done.
  assert (Hnamed : Forall (fun f => JS.truthy f = true) originalFrames).
  { repeat constructor. }
  destruct (C10_frame_normalisation 7 originalFrames Hne Hnamed)
    as (Hlen & _ & _ & Hex).
  split; [exact Hlen | by apply Hex].
Defined.

(** ** The sampler *)

Lemma total_of_zero_weights (traits : list Trait) (acc : Q) :
  Forall (fun t => (weight t == 0)%Q) traits →
  (fold_left (fun sum trait => sum + weight trait) traits acc == acc)%Q.
Proof.
  intros Hzero. revert acc.
  induction Hzero as [|t rest Ht _ IH]; intros acc; cbn [fold_left].
  - reflexivity.
  - rewrite IH, Ht. ring.
Qed.

Lemma weightedScan_stops_at_zero (random : Q) (first : Trait) (rest : list Trait) :
  (random == 0)%Q → (weight first == 0)%Q →
  weightedScan random (first :: rest) = Some first.
Proof.
  intros Hr Hw. cbn [weightedScan].
  assert (Hle : Qle_bool (random - weight first) 0 = true).
  { apply Qle_bool_iff. rewrite Hr, Hw. discriminate. }
  by rewrite Hle.
Qed.

(** C7 (as the code has it). When every candidate has weight zero, the
    total is zero, the scaled draw is zero whatever [Math.random] returns, and
    the scan stops at once: the sampler returns the first candidate in
    iteration order. *)
Theorem C7_zero_weights_select_first (first : Trait) (rest : list Trait) (w : World) :
  Forall (fun t => (weight t == 0)%Q) (first :: rest) →
  (weightedRandomSelect (first :: rest) w).1 = Ok first.
Proof.
  intros Hzero. destruct rest as [|second rest]; [done|].
  unfold weightedRandomSelect, bind, Math_random. cbn [fst].
  rewrite weightedScan_stops_at_zero; [done| |by inversion Hzero].
  rewrite (total_of_zero_weights _ 0 Hzero). ring.
Qed.

Lemma C7_zero_weights_select_first_witness :
  Forall (fun t => (weight t == 0)%Q) [Examples.zeroA; Examples.zeroB]
  ∧ (weightedRandomSelect [Examples.zeroA; Examples.zeroB] Examples.world1).1
    = Ok Examples.zeroA.
Proof.
  assert (Hzero : Forall (fun t => (weight t == 0)%Q) [Examples.zeroA; Examples.zeroB]).
  { repeat constructor. }
  split; [exact Hzero|].
  exact (C7_zero_weights_select_first Examples.zeroA [Examples.zeroB] Examples.world1 Hzero).
Defined.

(** C7 as stated fails: with the two zero-weight candidates A and B, in that
    order, the sampler does not return the last one. *)
Lemma C7_counterexample :
  let candidates := [Examples.zeroA; Examples.zeroB] in
  Forall (fun t => (weight t == 0)%Q) candidates
  ∧ (weightedRandomSelect candidates Examples.world1).1
    ≠ Ok (List.last candidates Examples.zeroA).
Proof.
  split; [repeat constructor|].
  vm_compute. discriminate.
Qed.

(** ** The batch loop, for an arbitrary attempt *)

Section BatchLoop.

Context {W : Type}.
Variable attempt : nat → W → Settled * W.

Lemma processResult_attempts (st : Run) (result : Settled) :
  attempts (processResult st result) = S (attempts st).
Proof.
  unfold processResult. destruct result as [c|e].
  - by case_bool_decide.
  - by destruct (recoverable e).
Qed.

Lemma processResult_accepts_at_most_one (st : Run) (result : Settled) :
  (length (combinations st) ≤ length (combinations (processResult st result))
   ≤ S (length (combinations st)))%nat.
Proof.
  unfold processResult. destruct result as [c|e].
  - case_bool_decide; cbn; rewrite ?length_app; cbn; lia.
  - destruct (recoverable e); cbn; lia.
Qed.

Lemma processResult_log (st : Run) (result : Settled) :
  log (processResult st result) = log st ++ fatalLog (attempts st) [result].
Proof.
  unfold processResult. destruct result as [c|e]; cbn.
  - case_bool_decide; cbn; by rewrite app_nil_r.
  - destruct (recoverable e); cbn; by rewrite ?app_nil_r.
Qed.

Lemma fatalLog_cons (n : nat) (result : Settled) (rest : list Settled) :
  fatalLog n (result :: rest) = fatalLog n [result] ++ fatalLog (S n) rest.
Proof.
  destruct result as [c|e]; cbn; [done|]. by destruct (recoverable e).
Qed.

(** Processing a batch consumes every result: each one counts as an attempt,
    and exactly the rejections that are not recoverable reach the log. *)
Lemma processBatch (results : list Settled) (st : Run) :
  let st' := fold_left processResult results st in
  attempts st' = (attempts st + length results)%nat
  ∧ (length (combinations st) ≤ length (combinations st')
     ≤ length (combinations st) + length results)%nat
  ∧ log st' = log st ++ fatalLog (attempts st) results.
Proof.
  revert st. induction results as [|result rest IH]; intros st; cbn [fold_left length].
  - cbn. rewrite app_nil_r. repeat split; lia.
  - destruct (IH (processResult st result)) as (Ha & Hc & Hl).
    pose proof (processResult_accepts_at_most_one st result) as Hone.
    rewrite processResult_attempts in Ha, Hl.
    split; [lia|]. split; [lia|].
    rewrite Hl, processResult_log, (fatalLog_cons _ result rest).
    by rewrite app_assoc.
Qed.

Lemma launchBatch_length (base i n : nat) (w : W) :
  length (launchBatch attempt base i n w).1 = n.
Proof.
  revert i w. induction n as [|n IH]; intros i w; cbn; [done|].
  destruct (attempt _ w) as [result w1].
  specialize (IH (S i) w1).
  destruct (launchBatch attempt base (S i) n w1) as [results w2].
  cbn in *. by rewrite IH.
Qed.

(** The loop ends by its own condition once it has fuel for one round per
    remaining attempt, and overshoots [maxAttempts] by less than a batch. *)
Lemma generateLoop_returns (fuel count batchSize maxAttempts : nat) (st : Run) (w : W) :
  ((0 < count)%nat → (0 < batchSize)%nat) →
  (maxAttempts - attempts st ≤ fuel)%nat →
  (length (combinations st) ≤ count)%nat →
  ∃ st' w',
    generateLoop attempt fuel count batchSize maxAttempts st w = Some (st', w')
    ∧ (length (combinations st') ≤ count)%nat
    ∧ (attempts st' ≤ Nat.max (attempts st) (maxAttempts + batchSize - 1))%nat
    ∧ ((count ≤ length (combinations st'))%nat ∨ (maxAttempts ≤ attempts st')%nat).
Proof.
  intros Hbatch. revert st w.
  induction fuel as [|fuel IH]; intros st w Hfuel Hlen; cbn [generateLoop].
  - destruct (Nat.ltb_spec (length (combinations st)) count) as [Hc|Hc];
      destruct (Nat.ltb_spec (attempts st) maxAttempts) as [Ha|Ha]; cbn [andb];
      try lia; eexists _, _; (split; [done|]); repeat split; lia.
  - destruct (Nat.ltb_spec (length (combinations st)) count) as [Hc|Hc];
      destruct (Nat.ltb_spec (attempts st) maxAttempts) as [Ha|Ha]; cbn [andb];
      try (eexists _, _; (split; [done|]); repeat split; lia).
    pose proof (launchBatch_length (length (combinations st)) 0
                  (Nat.min batchSize (count - length (combinations st))) w) as Hn.
    destruct (launchBatch attempt _ 0 _ w) as [results w1]. cbn in Hn.
    destruct (processBatch results st) as (Hat & Hco & _).
    destruct (IH (fold_left processResult results st) w1) as (st' & w' & -> & Hl & Hb & He);
      [lia | lia |].
    eexists _, _. split; [done|]. repeat split; [done | lia | done].
Qed.

(** More fuel never changes the outcome of the loop. *)
Lemma generateLoop_fuel_mono (fuel extra count batchSize maxAttempts : nat)
    (st : Run) (w : W) (res : Run * W) :
  generateLoop attempt fuel count batchSize maxAttempts st w = Some res →
  generateLoop attempt (fuel + extra) count batchSize maxAttempts st w = Some res.
Proof.
  revert st w. induction fuel as [|fuel IH]; intros st w; cbn [generateLoop Nat.add].
  - destruct (_ && _) eqn:E; [done|]. intros [= <-].
    destruct extra; cbn [generateLoop]; by rewrite E.
  - destruct (_ && _); [|done].
    destruct (launchBatch attempt _ 0 _ w) as [results w1]. apply IH.
Qed.

(** An invariant of the store kept by every attempt, and an invariant of
    the loop state kept by the processing of every result an attempt can
    produce, hold when the loop returns. *)
Lemma generateLoop_invariant (IW : W → Prop) (PS : Settled → Prop) (IR : Run → Prop) :
  (∀ n w, IW w → IW (attempt n w).2 ∧ PS (attempt n w).1) →
  (∀ st result, IR st → PS result → IR (processResult st result)) →
  ∀ fuel count batchSize maxAttempts st w st' w',
    IR st → IW w →
    generateLoop attempt fuel count batchSize maxAttempts st w = Some (st', w') →
    IR st' ∧ IW w'.
Proof.
  intros Hattempt Hprocess.
  assert (Hbatch : ∀ base n i w, IW w →
            IW (launchBatch attempt base i n w).2
            ∧ Forall PS (launchBatch attempt base i n w).1).
  { intros base n. induction n as [|n IH]; intros i w Hw; cbn; [by split|].
    destruct (Hattempt (base + i + 1)%nat w Hw) as [Hw1 Hr].
    destruct (attempt _ w) as [result w1]. cbn in Hw1, Hr.
    destruct (IH (S i) w1 Hw1) as [Hw2 Hrs].
    destruct (launchBatch attempt base (S i) n w1) as [results w2]. cbn in *.
    split; [done | by constructor]. }
  assert (Hfold : ∀ results st, IR st → Forall PS results →
            IR (fold_left processResult results st)).
  { induction results as [|result rest IH]; intros st Hst Hall; cbn; [done|].
    inversion Hall; subst. apply IH; [by apply Hprocess | done]. }
  induction fuel as [|fuel IH]; intros count batchSize maxAttempts st w st' w' Hst Hw;
    cbn [generateLoop]; destruct (_ && _); try done; try (by intros [= <- <-]).
  destruct (Hbatch (length (combinations st))
              (Nat.min batchSize (count - length (combinations st))) 0%nat w Hw)
    as [Hw1 Hrs].
  destruct (launchBatch attempt _ 0 _ w) as [results w1]. cbn in Hw1, Hrs.
  apply IH; [by apply Hfold | done].
Qed.

End BatchLoop.

Section Orchestrator.

Context {W : Type}.
Variable attempt : nat → W → Settled * W.

Lemma generateCombinationsWith_returns (count : nat) (used : gset string) (w : W) :
  ∃ st w',
    generateCombinationsWith attempt count used w = Some (finish count st, w')
    ∧ generateLoop attempt (count * 10) count (Nat.min 50 count) (count * 10)
                   (mkRun [] 0 0 used []) w = Some (st, w')
    ∧ (length (combinations st) ≤ count)%nat
    ∧ (attempts st ≤ count * 10 + (Nat.min 50 count - 1))%nat
    ∧ ((count ≤ length (combinations st))%nat ∨ (count * 10 ≤ attempts st)%nat).
Proof.
  destruct (generateLoop_returns attempt (count * 10) count (Nat.min 50 count)
              (count * 10) (mkRun [] 0 0 used []) w)
    as (st & w' & Hloop & Hlen & Hatt & Hexit); [lia | cbn; lia | cbn; lia |].
  exists st, w'. unfold generateCombinationsWith. rewrite Hloop.
  cbn [attempts] in Hatt. repeat split; [done | lia | done].
Qed.

Lemma processResult_deduplicated (used : gset string) (st : Run) (result : Settled) :
  deduplicated used st → deduplicated used (processResult st result).
Proof.
  intros (Hnd & Hsub & Hacc). unfold processResult.
  destruct result as [c|e]; [|by destruct (recoverable e)].
  case_bool_decide as Hseen; [done|]. split; [|split]; cbn.
  - rewrite fmap_app. apply NoDup_app. split; [done|]. split; [|apply NoDup_singleton].
    intros key Hkey Hc. apply list_elem_of_singleton in Hc as ->.
    apply list_elem_of_fmap in Hkey as (c' & Heq & Hc').
    apply Hseen. rewrite Heq. by apply Hacc.
  - clear Hacc. set_solver.
  - intros c' [Hc'| ->%list_elem_of_singleton]%elem_of_app.
    + destruct (Hacc c' Hc'). clear Hacc. set_solver.
    + clear Hacc. set_solver.
Qed.

Lemma generateCombinationsWith_deduplicated (count : nat) (used : gset string) (w : W) :
  ∃ r w',
    generateCombinationsWith attempt count used w = Some (r, w')
    ∧ deduplicated used r.
Proof.
  destruct (generateCombinationsWith_returns count used w)
    as (st & w' & Hgen & Hloop & _).
  exists (finish count st), w'. split; [done|].
  enough (deduplicated used st) by done.
  eapply (generateLoop_invariant attempt (fun _ => True) (fun _ => True)
            (deduplicated used)); [done | | | done | exact Hloop].
  - intros. by apply processResult_deduplicated.
  - split; [constructor|]. split; [done|]. intros c Hc. by apply elem_of_nil in Hc.
Qed.

Lemma processResult_only_fatal_logged (st : Run) (result : Settled) :
  only_fatal_logged st → only_fatal_logged (processResult st result).
Proof.
  intros Hlog.
  assert (Hold : ∀ entry, entry ∈ log st →
            ∃ n error, entry = LogFatalAttempt n error ∧ recoverable error = false
                       ∧ (1 ≤ n ≤ S (attempts st))%nat).
  { intros entry Hentry. destruct (Hlog entry Hentry) as (n & error & -> & Hrec & Hn).
    exists n, error. repeat split; [done | lia | lia]. }
  unfold processResult. destruct result as [c|e].
  - by case_bool_decide.
  - destruct (recoverable e) eqn:Hrec; [done|].
    intros entry [Hentry| ->%list_elem_of_singleton]%elem_of_app; [by apply Hold|].
    exists (S (attempts st)), e. cbn. repeat split; [done | lia | lia].
Qed.

Lemma generateCombinationsWith_log (count : nat) (used : gset string) (w : W) :
  ∃ r w',
    generateCombinationsWith attempt count used w = Some (r, w')
    ∧ ∀ n error, LogFatalAttempt n error ∈ log r →
                 recoverable error = false ∧ (1 ≤ n ≤ attempts r)%nat.
Proof.
  destruct (generateCombinationsWith_returns count used w)
    as (st & w' & Hgen & Hloop & _).
  exists (finish count st), w'. split; [done|].
  assert (Hlog : only_fatal_logged st).
  { eapply (generateLoop_invariant attempt (fun _ => True) (fun _ => True)
              only_fatal_logged); [done | | | done | exact Hloop].
    - intros. by apply processResult_only_fatal_logged.
    - intros entry Hentry. by apply elem_of_nil in Hentry. }
  intros n error. unfold finish. cbn [log attempts].
  intros [Hentry|Hentry]%elem_of_app.
  - assert (Hin : LogFatalAttempt n error ∈ log st).
    { destruct (_ <? _)%nat; [|done].
      apply elem_of_app in Hentry as [?|Hs]; [done|].
      by apply list_elem_of_singleton in Hs. }
    destruct (Hlog _ Hin) as (n' & error' & [= <- <-] & Hrec & Hn). by split.
  - by apply list_elem_of_singleton in Hentry.
Qed.

(** What every attempt guarantees of a fulfilled combination holds of every
    accepted one. *)
Lemma generateCombinationsWith_all (IW : W → Prop) (P : TraitCombination → Prop) :
  (∀ n w, IW w →
          IW (attempt n w).2
          ∧ match (attempt n w).1 with Fulfilled c => P c | Rejected _ => True end) →
  ∀ count used w, IW w →
    ∃ r w',
      generateCombinationsWith attempt count used w = Some (r, w')
      ∧ IW w' ∧ Forall P (combinations r).
Proof.
  intros Hattempt count used w Hw.
  destruct (generateCombinationsWith_returns count used w)
    as (st & w' & Hgen & Hloop & _).
  exists (finish count st), w'. split; [done|].
  enough (Forall P (combinations st) ∧ IW w') as [? ?] by done.
  eapply (generateLoop_invariant attempt IW
            (fun s => match s with Fulfilled c => P c | Rejected _ => True end)
            (fun st => Forall P (combinations st)));
    [exact Hattempt | | | exact Hw | exact Hloop].
  - intros st0 result Hall Hres. unfold processResult.
    destruct result as [c|e]; [|by destruct (recoverable e)].
    case_bool_decide; [done|]. cbn. apply Forall_app. by repeat constructor.
  - constructor.
Qed.

End Orchestrator.

(** ** The batch loop of the selector *)

(** C1. The combinations returned by one call of [generateCombinations] are
    pairwise distinct under the canonical signature [getCombinationKey] (and
    none repeats a signature the selector had used before the call). *)
Theorem C1_signatures_pairwise_distinct (config : GeneratorConfig) (count : nat)
    (used : gset string) (w : World) :
  ∃ r w',
    generateCombinations config count used w = Some (r, w')
    ∧ NoDup (getCombinationKey <$> combinations r)
    ∧ ∀ c, c ∈ combinations r → getCombinationKey c ∉ used.
Proof.
  destruct (generateCombinationsWith_deduplicated
              (fun n => settle (generateSingleCombination config n)) count used w)
    as (r & w' & Hgen & Hnd & _ & Hin).
  exists r, w'. split; [done|]. split; [done|]. intros c Hc. by apply Hin.
Qed.

(** C5 (as the code has it). [generateCombinations] always returns, the loop
    ending by its own condition; the cap is tested between rounds only, so for
    [count >= 1] the number of settled attempts stays below [count * 10] plus
    one batch, [min 50 count]; for [count = 0] no attempt is made.  On return
    [count] combinations were accepted or [count * 10] attempts settled. *)
Theorem C5_terminates_within_cap_plus_batch (config : GeneratorConfig) (count : nat)
    (used : gset string) (w : World) :
  ∃ r w',
    generateCombinations config count used w = Some (r, w')
    ∧ ((0 < count)%nat → (attempts r + 1 ≤ count * 10 + Nat.min 50 count)%nat)
    ∧ (count = 0%nat → attempts r = 0%nat ∧ combinations r = [])
    ∧ ((count ≤ length (combinations r))%nat ∨ (count * 10 ≤ attempts r)%nat).
Proof.
  destruct (generateCombinationsWith_returns
              (fun n => settle (generateSingleCombination config n)) count used w)
    as (st & w' & Hgen & _ & Hlen & Hatt & Hexit).
  exists (finish count st), w'. split; [done|]. cbn [finish attempts combinations].
  split; [lia|]. split; [|done].
  intros ->. cbn in Hatt, Hlen. split; [lia|].
  apply length_zero_iff_nil. lia.
Qed.

Lemma example_plain_six_attempts :
  (fun res => attempts res.1)
    <$> generateCombinations Examples.config_plain 6 ∅ Examples.world1
  = Some 61%nat.
Proof. vm_compute. reflexivity. Qed.

(** C5 as stated fails: six combinations requested from a catalog that has
    one; the call settles 61 attempts, more than [6 * 10]. *)
Lemma C5_counterexample :
  ∃ r w',
    generateCombinations Examples.config_plain 6 ∅ Examples.world1 = Some (r, w')
    ∧ (6 * 10 < attempts r)%nat.
Proof.
  pose proof example_plain_six_attempts as H.
  destruct (generateCombinations Examples.config_plain 6 ∅ Examples.world1)
    as [[r w']|]; [|discriminate].
  exists r, w'. split; [done|]. cbn in H. injection H as ->. lia.
Qed.

(** C2 (evaluation of the code). Ids are fixed when an attempt is launched,
    as [combinations.length + i + 1], not when its result is accepted.  With
    bg = {Red, Blue, Green}, body = {Robot}, Red excluding Robot, and draws
    picking Red, Blue, Green in turn, a request for two combinations runs a
    round of two attempts (ids 1 and 2; the first fails, the second is
    accepted) and a round of one attempt (id 2 again, accepted): both accepted
    combinations carry id 2. *)
Theorem C2_ids_follow_launch_order :
  (fun res => ((fun c => (id c, name <$> traits c)) <$> combinations res.1,
               attempts res.1))
    <$> generateCombinations Examples.config_incompatible 2 ∅ Examples.world3
  = Some ([(2%nat, ["Blue"; "Robot"]); (2%nat, ["Green"; "Robot"])], 3%nat).
Proof. vm_compute. reflexivity. Qed.

(** [applyDependentTraits] never returns a dependent trait: the array it
    returns is never pushed to. *)
Lemma applyDependentTraits_entries_returns (entries : list (string * string))
    (selectedTraits dependentTraits : list Trait) (w : World) (l : list Trait) :
  (applyDependentTraits_entries entries selectedTraits dependentTraits w).1 = Ok l →
  l = dependentTraits.
Proof.
  revert w. induction entries as [|[triggerKey dependentKey] rest IH]; intros w;
    cbn [applyDependentTraits_entries].
  - by intros [= <-].
  - destruct (existsb _ selectedTraits); [|apply IH].
    destruct (negb _); [|apply IH].
    unfold bind at 1. destruct (getAvailableTraits _ w) as [[inner|e] w1]; [|done].
    unfold bind at 1. cbn [readArray].
    destruct (List.find _ _); [|apply IH].
    unfold bind at 1. cbn [pushArray]. apply IH.
Qed.

Lemma applyDependentTraits_returns_empty (config : GeneratorConfig)
    (selectedTraits : list Trait) (w : World) (l : list Trait) :
  (applyDependentTraits config selectedTraits w).1 = Ok l → l = [].
Proof.
  unfold applyDependentTraits. destruct (dependent_traits config).
  - apply applyDependentTraits_entries_returns.
  - by intros [= <-].
Qed.

(** C3 (evaluation of the code). With the rule "bg:Red" -> "body:Robot",
    bg = {Red} and body = {Human, Robot}: Red is selected for bg, so the
    trigger is present and Robot is not yet selected, and Robot can be
    resolved in the catalog; yet the attempt ends with Human for body, Robot
    was not appended. *)
Theorem C3_dependent_trait_not_appended :
  (settle (generateSingleCombination Examples.config_dependent 1) Examples.world_dep).1
  = Fulfilled (mkTraitCombination 1 [Examples.red; Examples.human])
  ∧ existsb (matchesConfigKey "bg:Red") [Examples.red] = true
  ∧ existsb (matchesKeyOrName "body:Robot" "Robot") [Examples.red] = false
  ∧ List.find (hasBaseName "Robot") [Examples.human; Examples.robot]
    = Some Examples.robot.
Proof. vm_compute. repeat split; reflexivity. Qed.

(** C9 (evaluation of the code). In the same setting the attempt pushes the
    resolved Robot onto the array that [getAvailableTraits] returns, which is
    the cached list of body: every attempt makes the cached list one longer. *)
Theorem C9_attempt_grows_cached_list :
  let attempt n := settle (generateSingleCombination Examples.config_dependent n) in
  let w1 := (attempt 1%nat Examples.world_dep).2 in
  let w2 := (attempt 2%nat w1).2 in
  collectLeafTraits [("Human", Examples.leaf "layers/body/Human");
                     ("Robot", Examples.leaf "layers/body/Robot")] "body"
  = [Examples.human; Examples.robot]
  ∧ cachedTraits w1 "body" = Some [Examples.human; Examples.robot; Examples.robot]
  ∧ cachedTraits w2 "body"
    = Some [Examples.human; Examples.robot; Examples.robot; Examples.robot].
Proof. vm_compute. repeat split; reflexivity. Qed.

(** ** What one attempt guarantees *)

Lemma heap_grows_refl (w : World) : heap_grows w w.
Proof. intros l arr Hl. by exists arr. Qed.

Lemma heap_grows_same_heap (w w' : World) : heap w' = heap w → heap_grows w w'.
Proof. intros E l arr Hl. exists arr. by rewrite E. Qed.

Lemma heap_grows_trans (w1 w2 w3 : World) :
  heap_grows w1 w2 → heap_grows w2 w3 → heap_grows w1 w3.
Proof.
  intros H12 H23 l arr Hl.
  destruct (H12 l arr Hl) as (arr2 & Hl2 & Hsub2).
  destruct (H23 l arr2 Hl2) as (arr3 & Hl3 & Hsub3).
  exists arr3. split; [done|]. intros t Ht. by apply Hsub2, Hsub3.
Qed.

Lemma typed_at_grows (w w' : World) (traitType : string) (l : loc) :
  heap_grows w w' → typed_at w traitType l → typed_at w' traitType l.
Proof.
  intros Hg (arr & Hl & Hall). destruct (Hg l arr Hl) as (arr' & Hl' & Hsub).
  exists arr'. split; [done|]. apply Forall_forall. intros t Ht.
  by apply (proj1 (Forall_forall _ _) Hall), Hsub.
Qed.

(** A step that leaves both caches alone keeps the store well formed. *)
Lemma world_ok_grows (w w' : World) :
  world_ok w → heap_grows w w' →
  lp_traitCache (layerProcessor w') = lp_traitCache (layerProcessor w) →
  traitCache w' = traitCache w →
  world_ok w'.
Proof.
  intros [Hlp Hts] Hg Elp Ets. split; intros traitType l Hl.
  - rewrite Elp in Hl. eauto using typed_at_grows.
  - rewrite Ets in Hl. eauto using typed_at_grows.
Qed.

Lemma run_ok_intro {A} (m : M A) (w : World) (Q : A → World → Prop)
    (o : Outcome A) (w' : World) :
  m w = (o, w') → world_ok w' → heap_grows w w' →
  (∀ a, o = Ok a → Q a w') →
  run_ok m w Q.
Proof.
  intros E Hw Hg HQ. unfold run_ok. rewrite E. cbn.
  split; [done|]. split; [done|]. destruct o; auto.
Qed.

Lemma run_ok_ret {A} (a : A) (w : World) (Q : A → World → Prop) :
  world_ok w → Q a w → run_ok (ret a) w Q.
Proof.
  intros Hw HQ. eapply run_ok_intro; [done | done | apply heap_grows_refl |].
  by intros ? [= <-].
Qed.

Lemma run_ok_throw {A} (e : GeneratorError) (w : World) (Q : A → World → Prop) :
  world_ok w → run_ok (throw e) w Q.
Proof.
  intros Hw. eapply run_ok_intro; [done | done | apply heap_grows_refl | done].
Qed.

Lemma run_ok_bind {A B} (m : M A) (k : A → M B) (w : World)
    (Q1 : A → World → Prop) (Q2 : B → World → Prop) :
  run_ok m w Q1 →
  (∀ a w1, world_ok w1 → heap_grows w w1 → Q1 a w1 → run_ok (k a) w1 Q2) →
  run_ok (bind m k) w Q2.
Proof.
  unfold run_ok, bind. intros (Hw1 & Hg1 & HQ1) Hk.
  destruct (m w) as [[a|e] w1]; cbn in *; [|done].
  destruct (Hk a w1 Hw1 Hg1 HQ1) as (Hw2 & Hg2 & HQ2).
  eauto using heap_grows_trans.
Qed.

Lemma run_ok_weaken {A} (m : M A) (w : World) (Q Q' : A → World → Prop) :
  run_ok m w Q → (∀ a w', Q a w' → Q' a w') → run_ok m w Q'.
Proof.
  unfold run_ok. intros (Hw & Hg & HQ) Himp. split; [done|]. split; [done|].
  destruct (m w).1; auto.
Qed.

Lemma run_ok_Math_random (w : World) :
  world_ok w → run_ok Math_random w (fun _ _ => True).
Proof.
  intros Hw. eapply run_ok_intro; [done | | by apply heap_grows_same_heap | done].
  eapply world_ok_grows; [exact Hw | by apply heap_grows_same_heap | done | done].
Qed.

Lemma run_ok_allocArray (arr : list Trait) (w : World) :
  world_ok w → run_ok (allocArray arr) w (fun l w' => heap w' !! l = Some arr).
Proof.
  intros Hw.
  assert (Hg : heap_grows w (allocArray arr w).2).
  { intros l old Hl. exists old. split; [|done]. cbn.
    by rewrite lookup_app_l by (by eapply lookup_lt_Some). }
  eapply run_ok_intro; [done | | exact Hg |].
  - eapply world_ok_grows; [exact Hw | exact Hg | done | done].
  - intros l [= <-]. cbn. by rewrite lookup_app_r, Nat.sub_diag.
Qed.

Lemma run_ok_readArray (l : loc) (w : World) :
  world_ok w →
  run_ok (readArray l) w (fun arr w' => w' = w ∧ arr = default [] (heap w !! l)).
Proof.
  intros Hw. eapply run_ok_intro; [done | done | apply heap_grows_refl |].
  by intros ? [= <-].
Qed.

Lemma run_ok_pushArray (l : loc) (t : Trait) (w : World) (arr : list Trait) :
  world_ok w → heap w !! l = Some arr → t ∈ arr →
  run_ok (pushArray l t) w (fun _ _ => True).
Proof.
  intros Hw Hl Ht.
  assert (Hg : heap_grows w (pushArray l t w).2).
  { intros l' old Hl'. unfold pushArray. cbn [snd heap].
    destruct (decide (l' = l)) as [->|Hne].
    - rewrite list_lookup_alter_eq, Hl. cbn. eexists. split; [done|].
      assert (old = arr) as -> by congruence.
      intros t' [?| ->%list_elem_of_singleton]%elem_of_app; done.
    - rewrite list_lookup_alter_ne by done. by exists old. }
  eapply run_ok_intro; [done | | exact Hg | done].
  eapply world_ok_grows; [exact Hw | exact Hg | done | done].
Qed.

Lemma run_ok_lp_cache_set (traitType : string) (l : loc) (w : World) :
  world_ok w → typed_at w traitType l →
  run_ok (lp_cache_set traitType l) w (fun _ w' => heap w' = heap w).
Proof.
  intros [Hlp Hts] Hl.
  eapply run_ok_intro; [done | | by apply heap_grows_same_heap | done].
  split; cbn.
  - intros traitType' l'. destruct (decide (traitType = traitType')) as [<-|Hne].
    + rewrite lookup_insert_eq. by intros [= <-].
    + rewrite lookup_insert_ne by done. apply Hlp.
  - exact Hts.
Qed.

Lemma run_ok_ts_cache_set (traitType : string) (l : loc) (w : World) :
  world_ok w → typed_at w traitType l →
  run_ok (ts_cache_set traitType l) w (fun _ w' => heap w' = heap w).
Proof.
  intros [Hlp Hts] Hl.
  eapply run_ok_intro; [done | | by apply heap_grows_same_heap | done].
  split; cbn.
  - exact Hlp.
  - intros traitType' l'. destruct (decide (traitType = traitType')) as [<-|Hne].
    + rewrite lookup_insert_eq. by intros [= <-].
    + rewrite lookup_insert_ne by done. apply Hts.
Qed.

Lemma collectLeafTraits_node_typed (traitType : string) :
  ∀ (traitObj : TraitNode) (traitName : string),
    Forall (fun t => type t = traitType)
           (collectLeafTraits_node traitType traitName traitObj).
Proof.
  fix IH 1. intros [w p fr sub] traitName. cbn [collectLeafTraits_node].
  destruct (0 <? length fr)%nat; [by repeat constructor|].
  destruct sub as [subs|]; [|constructor].
  induction subs as [|[nm child] rest IHrest]; [constructor|].
  apply Forall_app. split; [apply IH | apply IHrest].
Qed.

Lemma collectLeafTraits_typed (traitData : list (string * TraitNode))
    (traitType : string) :
  Forall (fun t => type t = traitType) (collectLeafTraits traitData traitType).
Proof.
  unfold collectLeafTraits. induction traitData as [|[nm node] rest IH]; cbn.
  - constructor.
  - apply Forall_app. split; [apply collectLeafTraits_node_typed | exact IH].
Qed.

(** [getAvailableTraits] returns an array of traits of the category asked. *)
Lemma run_ok_getAvailableTraits (traitType : string) (w : World) :
  world_ok w →
  run_ok (getAvailableTraits traitType) w (fun l w' => typed_at w' traitType l).
Proof.
  intros Hw. unfold getAvailableTraits.
  eapply run_ok_bind with (Q1 := fun lp w1 => w1 = w ∧ lp = layerProcessor w).
  { eapply run_ok_intro; [done | done | apply heap_grows_refl |]. by intros ? [= <-]. }
  intros lp w1 _ _ [-> ->].
  destruct (lp_traitCache (layerProcessor w) !! traitType) as [cached|] eqn:Ecache.
  { apply run_ok_ret; [done|]. by apply (proj1 Hw). }
  destruct (negb _); [by apply run_ok_throw|].
  destruct (hierarchy (layerProcessor w) !! traitType) as [traitTypeTraits|].
  - eapply run_ok_bind; [by apply run_ok_allocArray|].
    intros traits w1 Hw1 _ Htraits. cbn beta in Htraits.
    assert (Htyped : typed_at w1 traitType traits).
    { eexists. split; [exact Htraits | apply collectLeafTraits_typed]. }
    eapply run_ok_bind; [by apply run_ok_lp_cache_set|].
    intros _ w2 Hw2 Hg2 _. apply run_ok_ret; [done|].
    by eapply typed_at_grows.
  - eapply run_ok_bind; [by apply run_ok_allocArray|].
    intros cachedEmpty w1 Hw1 _ Hempty. cbn beta in Hempty.
    eapply run_ok_bind.
    { apply run_ok_lp_cache_set; [done|]. eexists. split; [exact Hempty | constructor]. }
    intros _ w2 Hw2 _ _.
    eapply run_ok_weaken; [by apply run_ok_allocArray|].
    intros l w3 Hl. eexists. split; [exact Hl | constructor].
Qed.

(** A forced trait belongs to the category being processed. *)
Lemma run_ok_applyForcedPairings_entries (entries : list (string * list string))
    (traitType : string) (selectedTraits : list Trait) (w : World) :
  world_ok w →
  run_ok (applyForcedPairings_entries entries traitType selectedTraits) w
         (fun forced _ => ∀ t, forced = Some t → type t = traitType).
Proof.
  revert w. induction entries as [|[triggerKey forcedKey] rest IH]; intros w Hw;
    cbn [applyForcedPairings_entries]; cbv zeta.
  { by apply run_ok_ret. }
  destruct (existsb _ selectedTraits); [|by apply IH].
  destruct (String.eqb _ traitType); [|by apply IH].
  destruct (negb _); [|by apply IH].
  eapply run_ok_bind; [by apply run_ok_getAvailableTraits|].
  intros availableTraits w1 Hw1 _ (arr & Harr & Htyped). cbn beta.
  eapply run_ok_bind; [by apply run_ok_readArray|].
  intros available w2 _ _ [-> ->]. rewrite Harr.
  change (default [] (Some arr)) with arr.
  destruct (List.find _ arr) as [forcedTrait|] eqn:Efind; [|by apply IH].
  apply run_ok_ret; [done|]. intros t [= <-].
  apply find_some in Efind as [Hin _]. apply list_elem_of_In in Hin.
  by apply (proj1 (Forall_forall _ _) Htyped).
Qed.

Lemma run_ok_applyForcedPairings (config : GeneratorConfig) (traitType : string)
    (selectedTraits : list Trait) (w : World) :
  world_ok w →
  run_ok (applyForcedPairings config traitType selectedTraits) w
         (fun forced _ =>
            (∀ t, forced = Some t → type t = traitType)
            ∧ (noForcedPairings config → forced = None)).
Proof.
  intros Hw. unfold applyForcedPairings, noForcedPairings.
  destruct (forced_pairings config) as [[|entry entries]|].
  - apply run_ok_ret; [done|]. by split.
  - eapply run_ok_weaken; [by apply run_ok_applyForcedPairings_entries|].
    cbn beta. intros forced w' Hforced. by split.
  - apply run_ok_ret; [done|]. by split.
Qed.

(** The dependent-trait step returns the array it started with; its pushes
    go to cached arrays and repeat traits those arrays already hold. *)
Lemma run_ok_applyDependentTraits_entries (entries : list (string * string))
    (selectedTraits dependentTraits : list Trait) (w : World) :
  world_ok w →
  run_ok (applyDependentTraits_entries entries selectedTraits dependentTraits) w
         (fun returned _ => returned = dependentTraits).
Proof.
  revert w. induction entries as [|[triggerKey dependentKey] rest IH]; intros w Hw;
    cbn [applyDependentTraits_entries]; cbv zeta.
  { by apply run_ok_ret. }
  destruct (existsb _ selectedTraits); [|by apply IH].
  destruct (negb _); [|by apply IH].
  eapply run_ok_bind; [by apply run_ok_getAvailableTraits|].
  intros inner w1 Hw1 _ (arr & Harr & Htyped). cbn beta.
  eapply run_ok_bind; [by apply run_ok_readArray|].
  intros candidates w2 _ _ [-> ->]. rewrite Harr.
  change (default [] (Some arr)) with arr.
  destruct (List.find _ arr) as [dependentTrait|] eqn:Efind; [|by apply IH].
  apply find_some in Efind as [Hin _]. apply list_elem_of_In in Hin.
  eapply run_ok_bind; [by eapply run_ok_pushArray|].
  intros _ w3 Hw3 _ _. by apply IH.
Qed.

Lemma run_ok_applyDependentTraits (config : GeneratorConfig)
    (selectedTraits : list Trait) (w : World) :
  world_ok w →
  run_ok (applyDependentTraits config selectedTraits) w (fun returned _ => returned = []).
Proof.
  intros Hw. unfold applyDependentTraits. destruct (dependent_traits config).
  - by apply run_ok_applyDependentTraits_entries.
  - by apply run_ok_ret.
Qed.

(** The sampler returns one of its candidates. *)
Lemma weightedScan_elem (random : Q) (traits : list Trait) (t : Trait) :
  weightedScan random traits = Some t → t ∈ traits.
Proof.
  revert random. induction traits as [|trait rest IH]; intros random; cbn; [done|].
  destruct (Qle_bool _ 0).
  - intros [= <-]. by left.
  - intros H. right. by eapply IH.
Qed.

Lemma last_elem (traits : list Trait) (first : Trait) :
  traits ≠ [] → List.last traits first ∈ traits.
Proof.
  induction traits as [|t rest IH]; [done|]. intros _.
  destruct rest as [|t' rest']; [by left|].
  right. by apply IH.
Qed.

Lemma run_ok_weightedRandomSelect (traits : list Trait) (w : World) :
  world_ok w →
  run_ok (weightedRandomSelect traits) w (fun t _ => t ∈ traits).
Proof.
  intros Hw. unfold weightedRandomSelect.
  destruct traits as [|first [|second rest]].
  - by apply run_ok_throw.
  - apply run_ok_ret; [done | by left].
  - eapply run_ok_bind; [by apply run_ok_Math_random|].
    intros r w1 Hw1 _ _. cbn beta.
    destruct (weightedScan _ _) as [t|] eqn:Escan.
    + apply run_ok_ret; [done|]. by eapply weightedScan_elem.
    + apply run_ok_ret; [done|]. by apply last_elem.
Qed.

(** ** The rule filters *)

Lemma existsb_false {A} (f : A → bool) (l : list A) :
  existsb f l = false ↔ ∀ x, x ∈ l → f x = false.
Proof.
  induction l as [|y l IH]; cbn.
  - split; [|done]. intros _ x Hx. by apply elem_of_nil in Hx.
  - rewrite orb_false_iff, IH. split.
    + intros [Hy Hl] x [->|Hx]%elem_of_cons; auto.
    + intros H. split; [apply H; by left|]. intros x Hx. apply H. by right.
Qed.

Lemma filter_elem {A} (f : A → bool) (l : list A) (x : A) :
  x ∈ List.filter f l ↔ x ∈ l ∧ f x = true.
Proof. rewrite !list_elem_of_In. apply filter_In. Qed.

Lemma getTraitKeys_keyOf (t t' : Trait) :
  keyOf t = keyOf t' → getTraitKeys t = getTraitKeys t'.
Proof. unfold keyOf, getTraitKeys. by intros [= -> ->]. Qed.

Lemma getTraitKeys_withType (t : Trait) (keys : TraitKeys) :
  getTraitKeys t = Some keys → withType keys = type t +:+ ":" +:+ nameOnly keys.
Proof.
  unfold getTraitKeys. destruct (negb _); [done|]. by intros [= <-].
Qed.

Lemma applyIncompatibilityRules_elem (config : GeneratorConfig)
    (availableTraits selectedTraits : list Trait) (t : Trait) :
  t ∈ applyIncompatibilityRules config availableTraits selectedTraits →
  t ∈ availableTraits ∧ compatible config selectedTraits t.
Proof.
  unfold applyIncompatibilityRules, compatible.
  destruct (incompatible_traits config) as [rules|]; [|done].
  rewrite filter_elem. intros [Hin Hkeep]. split; [done|].
  destruct (getTraitKeys t); [|done]. by apply negb_true_iff.
Qed.

Lemma applyExclusiveGroupRules_elem (config : GeneratorConfig) (traitType : string)
    (availableTraits selectedTraits : list Trait) (t : Trait) :
  t ∈ applyExclusiveGroupRules config traitType availableTraits selectedTraits →
  t ∈ availableTraits.
Proof.
  unfold applyExclusiveGroupRules.
  destruct (exclusive_groups config) as [groups|]; [|done].
  destruct (List.find _ groups) as [[groupName group]|]; [|done].
  destruct (existsb _ selectedTraits); [|done].
  rewrite filter_elem. by intros [? _].
Qed.

Lemma setWeightOfFirst_keys (p : Trait → bool) (newWeight : Q) (ts : list Trait) :
  keyOf <$> setWeightOfFirst p newWeight ts = keyOf <$> ts.
Proof.
  induction ts as [|t rest IH]; cbn; [done|].
  destruct (p t); cbn; [done|]. by rewrite IH.
Qed.

Lemma JSON_clone_keys (ts : list Trait) : keyOf <$> JSON_clone ts = keyOf <$> ts.
Proof. unfold JSON_clone. induction ts as [|t rest IH]; cbn; [done|]. by f_equal. Qed.

(** Conditional rarity changes weights only: categories and names of the
    candidates are as before. *)
Lemma applyConditionalRarity_keys (config : GeneratorConfig)
    (availableTraits selectedTraits : list Trait) :
  keyOf <$> applyConditionalRarity config availableTraits selectedTraits
  = keyOf <$> availableTraits.
Proof.
  unfold applyConditionalRarity.
  destruct (conditional_rarity config) as [rules|]; [|done].
  rewrite <- (JSON_clone_keys availableTraits).
  generalize (JSON_clone availableTraits). clear availableTraits.
  induction rules as [|[conditionKey adjustments] rules IH]; intros adjusted;
    cbn [fold_left fst snd]; [done|].
  rewrite IH. destruct (existsb _ selectedTraits); [|done].
  clear IH. revert adjusted.
  induction adjustments as [|[targetKey newWeight] adjustments IH]; intros adjusted;
    cbn [fold_left fst snd]; [done|].
  by rewrite IH, setWeightOfFirst_keys.
Qed.

Lemma compatible_keyOf (config : GeneratorConfig) (selected : list Trait) (t t' : Trait) :
  keyOf t = keyOf t' → compatible config selected t → compatible config selected t'.
Proof.
  intros Hk. unfold compatible. by rewrite (getTraitKeys_keyOf t t' Hk).
Qed.

(** ** One category, one attempt *)

(** Handling a category either throws or appends exactly one trait, of that
    category; without forced pairings the trait passed the incompatibility
    filter against everything selected before it. *)
Lemma run_ok_selectForLayer (config : GeneratorConfig) (traitType : string)
    (selectedTraits : list Trait) (w : World) :
  world_ok w →
  run_ok (selectForLayer config traitType selectedTraits) w
         (fun selected' _ =>
            ∃ t, selected' = selectedTraits ++ [t] ∧ type t = traitType
                 ∧ (noForcedPairings config → compatible config selectedTraits t)).
Proof.
  intros Hw. unfold selectForLayer.
  eapply run_ok_bind with (Q1 := fun cached w1 => w1 = w ∧ cached = traitCache w !! traitType).
  { eapply run_ok_intro; [done | done | apply heap_grows_refl |]. by intros ? [= <-]. }
  intros cached w0 _ _ [-> ->].
  eapply run_ok_bind with (Q1 := fun l w1 => typed_at w1 traitType l).
  { destruct (traitCache w !! traitType) as [l|] eqn:Ecached.
    - apply run_ok_ret; [done|]. by apply (proj2 Hw).
    - eapply run_ok_bind; [by apply run_ok_getAvailableTraits|].
      intros l w1 Hw1 _ Hl. cbn beta in Hl.
      eapply run_ok_bind; [by apply run_ok_ts_cache_set|].
      intros _ w2 Hw2 Hg2 _. apply run_ok_ret; [done|]. by eapply typed_at_grows. }
  intros traits w1 Hw1 _ Htraits.
  eapply run_ok_bind; [by apply run_ok_applyForcedPairings|].
  intros forcedTrait w2 Hw2 Hg2 [Hforced HnoForced]. cbn beta in Hforced, HnoForced.
  destruct forcedTrait as [forced|].
  { apply run_ok_ret; [done|]. exists forced. split; [done|]. split; [by apply Hforced|].
    intros Hno. by specialize (HnoForced Hno). }
  eapply run_ok_bind; [by apply run_ok_applyDependentTraits|].
  intros dependentTraits w3 Hw3 Hg3 ->. cbn [length Nat.ltb Nat.leb andb].
  eapply run_ok_bind; [by apply run_ok_readArray|].
  intros available w4 _ _ [-> ->].
  destruct (typed_at_grows _ _ _ _ Hg3 (typed_at_grows _ _ _ _ Hg2 Htraits))
    as (arr & Harr & Htyped).
  rewrite Harr. change (default [] (Some arr)) with arr.
  destruct (length _ =? 0)%nat; [by apply run_ok_throw|].
  eapply run_ok_bind; [by apply run_ok_weightedRandomSelect|].
  intros selectedTrait w5 Hw5 _ Hsel. cbn beta in Hsel.
  apply run_ok_ret; [done|]. exists selectedTrait. split; [done|].
  apply (list_elem_of_fmap_2 keyOf) in Hsel.
  rewrite applyConditionalRarity_keys in Hsel.
  apply list_elem_of_fmap in Hsel as (t0 & Hkey & Ht0).
  apply applyExclusiveGroupRules_elem, applyIncompatibilityRules_elem in Ht0
    as [Ht0 Hcompat].
  split.
  - injection Hkey as -> _. by apply (proj1 (Forall_forall _ _) Htyped).
  - intros _. by apply (compatible_keyOf config selectedTraits t0).
Qed.

Lemma run_ok_selectLayers (config : GeneratorConfig) (layerOrder : list string)
    (selectedTraits : list Trait) (w : World) :
  world_ok w →
  run_ok (selectLayers config layerOrder selectedTraits) w
         (fun selected' _ =>
            ∃ added, selected' = selectedTraits ++ added
                     ∧ type <$> added = layerOrder
                     ∧ (noForcedPairings config →
                        prefix_compatible config selectedTraits added)).
Proof.
  revert selectedTraits w.
  induction layerOrder as [|traitType rest IH]; intros selectedTraits w Hw;
    cbn [selectLayers].
  { apply run_ok_ret; [done|]. exists []. by rewrite app_nil_r. }
  eapply run_ok_bind; [by apply run_ok_selectForLayer|].
  intros selected1 w1 Hw1 _ (t & -> & Htype & Hcompat).
  eapply run_ok_weaken; [by apply IH|].
  intros selected' w2 (added & -> & Htypes & Hprefix).
  exists (t :: added). split; [by rewrite <- app_assoc|].
  split; [cbn; by rewrite Htype, Htypes|].
  intros Hno. split; [by apply Hcompat | by apply Hprefix].
Qed.

Lemma generateSingleCombination_spec (config : GeneratorConfig) (n : nat) (w : World) :
  world_ok w →
  let attempt := settle (generateSingleCombination config n) w in
  world_ok attempt.2
  ∧ match attempt.1 with
    | Fulfilled c => well_formed_combination config c
    | Rejected _ => True
    end.
Proof.
  intros Hw attempt. subst attempt.
  assert (Hrun : run_ok (generateSingleCombination config n) w
                   (fun c _ => well_formed_combination config c)).
  { unfold generateSingleCombination.
    eapply run_ok_bind; [by apply run_ok_selectLayers|].
    intros selected w1 Hw1 _ (added & -> & Htypes & Hprefix).
    apply run_ok_ret; [done|]. by split. }
  destruct Hrun as (Hw' & _ & HQ). unfold settle.
  destruct (generateSingleCombination config n w) as [[c|e] w']; by split.
Qed.

(** ** Accepted combinations *)

Lemma generateCombinations_well_formed (config : GeneratorConfig) (count : nat)
    (used : gset string) (w : World) :
  world_ok w →
  ∃ r w',
    generateCombinations config count used w = Some (r, w')
    ∧ world_ok w'
    ∧ Forall (well_formed_combination config) (combinations r).
Proof.
  intros Hw. unfold generateCombinations.
  apply (generateCombinationsWith_all _ world_ok (well_formed_combination config));
    [|done].
  intros n w0 Hw0. by apply generateSingleCombination_spec.
Qed.

Lemma count_in_NoDup (order : list string) (category : string) :
  NoDup order → category ∈ order →
  length (List.filter (fun x => String.eqb x category) order) = 1%nat.
Proof.
  induction 1 as [|x rest Hx Hnd IH]; [by intros ?%elem_of_nil|].
  cbn [List.filter]. destruct (String.eqb_spec x category) as [->|Hne].
  - intros _. cbn. f_equal. apply length_zero_iff_nil.
    destruct (List.filter _ rest) as [|y ys] eqn:E; [done|].
    assert (Hy : y ∈ List.filter (fun x => String.eqb x category) rest)
      by (rewrite E; by left).
    apply filter_elem in Hy as [Hy Heq]. apply String.eqb_eq in Heq as ->. done.
  - intros [->|Hin]%elem_of_cons; [done | by apply IH].
Qed.

Lemma count_not_in (order : list string) (category : string) :
  category ∉ order →
  length (List.filter (fun x => String.eqb x category) order) = 0%nat.
Proof.
  intros Hnot. apply length_zero_iff_nil.
  destruct (List.filter _ order) as [|y ys] eqn:E; [done|].
  assert (Hy : y ∈ List.filter (fun x => String.eqb x category) order)
    by (rewrite E; by left).
  apply filter_elem in Hy as [Hy Heq]. apply String.eqb_eq in Heq as ->. done.
Qed.

Lemma filter_by_type (ts : list Trait) (category : string) :
  length (List.filter (fun t => String.eqb (type t) category) ts)
  = length (List.filter (fun x => String.eqb x category) (type <$> ts)).
Proof.
  induction ts as [|t rest IH]; cbn; [done|].
  destruct (String.eqb (type t) category); cbn; by rewrite IH.
Qed.

(** C4 (as the code has it). Every combination returned by
    [generateCombinations] has one trait per entry of the processing order, in
    that order: its list of categories is the processing order.  So when the
    order lists no category twice, a listed category has exactly one trait,
    never zero and never two, and a category that is not listed has none. *)
Theorem C4_one_trait_per_category (config : GeneratorConfig) (count : nat)
    (used : gset string) (w : World) :
  world_ok w →
  ∃ r w',
    generateCombinations config count used w = Some (r, w')
    ∧ world_ok w'
    ∧ ∀ c, c ∈ combinations r →
        type <$> traits c = trait_processing_order config
        ∧ (∀ category,
             NoDup (trait_processing_order config) →
             category ∈ trait_processing_order config →
             length (List.filter (fun t => String.eqb (type t) category) (traits c))
             = 1%nat)
        ∧ (∀ category,
             category ∉ trait_processing_order config →
             length (List.filter (fun t => String.eqb (type t) category) (traits c))
             = 0%nat).
Proof.
  intros Hw.
  destruct (generateCombinations_well_formed config count used w Hw)
    as (r & w' & Hgen & Hw' & Hall).
  exists r, w'. split; [done|]. split; [done|]. intros c Hc.
  destruct (proj1 (Forall_forall _ _) Hall c Hc) as [Htypes _].
  split; [done|]. split; intros category.
  - intros Hnd Hin. rewrite filter_by_type, Htypes. by apply count_in_NoDup.
  - intros Hnot. rewrite filter_by_type, Htypes. by apply count_not_in.
Qed.

Lemma freshWorld_ok (valid : option bool)
    (hier : gmap string (list (string * TraitNode))) (draws : nat → Q) :
  world_ok (freshWorld valid hier draws).
Proof. split; intros traitType l Hl; cbn in Hl; by rewrite lookup_empty in Hl. Qed.

Lemma C4_one_trait_per_category_witness :
  world_ok Examples.world3
  ∧ ∃ r w',
      generateCombinations Examples.config_incompatible 2 ∅ Examples.world3
      = Some (r, w')
      ∧ ∀ c, c ∈ combinations r → type <$> traits c = ["bg"; "body"].
Proof.
  assert (Hw : world_ok Examples.world3).
  { split; intros traitType l Hl; cbn in Hl; by rewrite lookup_empty in Hl. }
  split; [exact Hw|].
  destruct (C4_one_trait_per_category Examples.config_incompatible 2 ∅
              Examples.world3 Hw) as (r & w' & Hgen & _ & Hall).
  exists r, w'. split; [exact Hgen|]. intros c Hc. by destruct (Hall c Hc).
Defined.

(** C4 as stated fails: the configuration may list a category twice, and
    then every pass through the loop selects a trait for it.  With the order
    [bg, bg] and draws picking Red then Blue, the accepted combination holds
    two traits of bg. *)
Lemma C4_counterexample :
  (fun res => (fun c => (fun t => (type t, name t)) <$> traits c) <$> combinations res.1)
    <$> generateCombinations Examples.config_repeated 1 ∅ Examples.world3
  = Some [[("bg", "Red"); ("bg", "Blue")]].
Proof. vm_compute. reflexivity. Qed.

(** ** Incompatibility *)

Lemma prefix_compatible_split (config : GeneratorConfig) (pre l l1 l2 : list Trait)
    (t : Trait) :
  prefix_compatible config pre l → l = l1 ++ t :: l2 →
  compatible config (pre ++ l1) t.
Proof.
  revert pre l1. induction l as [|x rest IH]; intros pre l1 Hpre Heq.
  { by destruct l1. }
  destruct Hpre as [Hx Hrest]. destruct l1 as [|y l1]; cbn in Heq.
  - injection Heq as -> _. by rewrite app_nil_r.
  - injection Heq as <- ->.
    replace (pre ++ x :: l1) with ((pre ++ [x]) ++ l1) by by rewrite <- app_assoc.
    by eapply IH.
Qed.

Lemma two_elems_split {A} (l : list A) (x y : A) :
  x ∈ l → y ∈ l → x ≠ y →
  (∃ l1 l2 l3, l = l1 ++ x :: l2 ++ y :: l3)
  ∨ (∃ l1 l2 l3, l = l1 ++ y :: l2 ++ x :: l3).
Proof.
  intros (l1 & l2 & ->)%list_elem_of_split Hy Hne.
  apply elem_of_app in Hy as [Hy|Hy].
  - right. apply list_elem_of_split in Hy as (l3 & l4 & ->).
    exists l3, l4, l2. by rewrite <- app_assoc.
  - apply elem_of_cons in Hy as [->|Hy]; [done|].
    left. apply list_elem_of_split in Hy as (l3 & l4 & ->). by exists l1, l3, l4.
Qed.

(** The filter keeps a candidate exactly when no selected trait conflicts
    with it through the rule lists that [rulesFor] finds. *)
Lemma applyIncompatibilityRules_spec (config : GeneratorConfig)
    (rules : gmap string (list string)) (availableTraits selectedTraits : list Trait)
    (t : Trait) :
  incompatible_traits config = Some rules →
  t ∈ applyIncompatibilityRules config availableTraits selectedTraits
  ↔ t ∈ availableTraits
    ∧ ∀ kt, getTraitKeys t = Some kt →
        ∀ s ks, s ∈ selectedTraits → getTraitKeys s = Some ks →
          listsTrait (rulesFor rules ks) kt = false
          ∧ listsTrait (rulesFor rules kt) ks = false.
Proof.
  intros Hrules. unfold applyIncompatibilityRules. rewrite Hrules, filter_elem.
  apply and_iff_compat_l.
  destruct (getTraitKeys t) as [kt|]; [|by split].
  rewrite negb_true_iff, existsb_false. split.
  - intros Hnone kt' [= <-] s ks Hs Hks. specialize (Hnone s Hs).
    unfold conflictsWith in Hnone. rewrite Hks in Hnone.
    by apply orb_false_iff in Hnone.
  - intros Hnone s Hs. unfold conflictsWith.
    destruct (getTraitKeys s) as [ks|] eqn:Hks; [|done].
    apply orb_false_iff. by eapply Hnone.
Qed.

(** Without forced pairings, no trait of an accepted combination conflicts
    with a trait selected before it. *)
Lemma accepted_pairwise_compatible (config : GeneratorConfig)
    (rules : gmap string (list string)) (c : TraitCombination)
    (l1 l2 l3 : list Trait) (s t : Trait) (kt : TraitKeys) :
  incompatible_traits config = Some rules →
  noForcedPairings config →
  well_formed_combination config c →
  traits c = l1 ++ s :: l2 ++ t :: l3 →
  getTraitKeys t = Some kt →
  conflictsWith rules kt s = false.
Proof.
  intros Hrules Hno [_ Hprefix] Hsplit Hkt.
  pose proof (prefix_compatible_split config [] (traits c) (l1 ++ s :: l2) l3 t
                (Hprefix Hno)) as Hcompat.
  rewrite <- app_assoc in Hcompat. specialize (Hcompat Hsplit).
  unfold compatible in Hcompat. rewrite Hrules, Hkt in Hcompat.
  apply (proj1 (existsb_false _ _) Hcompat).
  cbn. apply elem_of_app. right. by left.
Qed.

Lemma isOption_keys (category optionName : string) (t : Trait) :
  isOption category optionName t →
  getTraitKeys t = Some (mkTraitKeys optionName (category +:+ ":" +:+ optionName)).
Proof.
  intros [Htype Hkeys]. destruct (getTraitKeys t) as [[n wt]|] eqn:E; [|done].
  cbn in Hkeys. subst n. apply getTraitKeys_withType in E as Hwt. cbn in Hwt.
  by rewrite Hwt, Htype.
Qed.

(** C8 (as the code has it). With rules [rules] and no forced pairing, a
    trait of an accepted combination never conflicts with one selected before
    it; so with the rules {"bg:Red": ["body:Robot"]} no accepted combination
    holds both Red of bg and Robot of body, whichever category comes first.
    The filter removes exactly the candidates for which, for some selected
    trait, the rule list found for the selected trait names the candidate, or
    the one found for the candidate names the selected trait, by compound key
    or bare name; the list found for a trait is the entry under its compound
    key, and the entry under its bare name only when the former is absent. *)
Theorem C8_incompatibility_filter (config : GeneratorConfig)
    (rules : gmap string (list string)) (count : nat) (used : gset string) (w : World) :
  world_ok w →
  noForcedPairings config →
  incompatible_traits config = Some rules →
  (∃ r w',
     generateCombinations config count used w = Some (r, w')
     ∧ (∀ c l1 l2 l3 s t kt,
          c ∈ combinations r → traits c = l1 ++ s :: l2 ++ t :: l3 →
          getTraitKeys t = Some kt → conflictsWith rules kt s = false)
     ∧ (rules = {["bg:Red" := ["body:Robot"]]} →
        ∀ c red robot,
          c ∈ combinations r → red ∈ traits c → robot ∈ traits c →
          isOption "bg" "Red" red → isOption "body" "Robot" robot → False))
  ∧ (∀ availableTraits selectedTraits t,
       t ∈ applyIncompatibilityRules config availableTraits selectedTraits
       ↔ t ∈ availableTraits
         ∧ ∀ kt, getTraitKeys t = Some kt →
             ∀ s ks, s ∈ selectedTraits → getTraitKeys s = Some ks →
               listsTrait (rulesFor rules ks) kt = false
               ∧ listsTrait (rulesFor rules kt) ks = false).
Proof.
  intros Hw Hno Hrules. split; [|intros; by apply applyIncompatibilityRules_spec].
  destruct (generateCombinations_well_formed config count used w Hw)
    as (r & w' & Hgen & _ & Hall).
  exists r, w'. split; [done|].
  assert (Hpair : ∀ c l1 l2 l3 s t kt,
            c ∈ combinations r → traits c = l1 ++ s :: l2 ++ t :: l3 →
            getTraitKeys t = Some kt → conflictsWith rules kt s = false).
  { intros c l1 l2 l3 s t kt Hc Hsplit Hkt.
    eapply accepted_pairwise_compatible; try done.
    by apply (proj1 (Forall_forall _ _) Hall). }
  split; [exact Hpair|].
  intros -> c red robot Hc Hred Hrobot Hisred Hisrobot.
  pose proof (isOption_keys _ _ _ Hisred) as Kred.
  pose proof (isOption_keys _ _ _ Hisrobot) as Krobot.
  assert (Hne : red ≠ robot).
  { intros ->. rewrite Kred in Krobot. discriminate. }
  destruct (two_elems_split (traits c) red robot Hred Hrobot Hne)
    as [(l1 & l2 & l3 & Hsplit)|(l1 & l2 & l3 & Hsplit)].
  - pose proof (Hpair c l1 l2 l3 red robot _ Hc Hsplit Krobot) as Hconf.
    unfold conflictsWith in Hconf. rewrite Kred in Hconf.
    vm_compute in Hconf. discriminate.
  - pose proof (Hpair c l1 l2 l3 robot red _ Hc Hsplit Kred) as Hconf.
    unfold conflictsWith in Hconf. rewrite Krobot in Hconf.
    vm_compute in Hconf. discriminate.
Qed.

Lemma C8_incompatibility_filter_witness :
  world_ok Examples.world3
  ∧ noForcedPairings Examples.config_incompatible
  ∧ ∃ r w',
      generateCombinations Examples.config_incompatible 2 ∅ Examples.world3
      = Some (r, w')
      ∧ ∀ c red robot,
          c ∈ combinations r → red ∈ traits c → robot ∈ traits c →
          isOption "bg" "Red" red → isOption "body" "Robot" robot → False.
Proof.
  assert (Hw : world_ok Examples.world3).
  { split; intros traitType l Hl; cbn in Hl; by rewrite lookup_empty in Hl. }
  assert (Hno : noForcedPairings Examples.config_incompatible) by reflexivity.
  split; [exact Hw|]. split; [exact Hno|].
  destruct (C8_incompatibility_filter Examples.config_incompatible
              {["bg:Red" := ["body:Robot"]]} 2 ∅ Examples.world3 Hw Hno eq_refl)
    as [(r & w' & Hgen & _ & Hscenario) _].
  exists r, w'. split; [exact Hgen|]. by apply Hscenario.
Defined.

(** C8 as stated fails twice.  Its scenario: with the rules
    {"bg:Red": ["body:Robot"]} and the forced pairing "bg:Red" -> ["body:Robot"],
    Red of bg is selected, the forced trait Robot is pushed before the
    incompatibility filter runs, and the accepted combination holds both.  Its
    general part: Red of bg is selected, Robot of body is a candidate, and the
    rules declare the conflict under the bare name "Red"; because Red also has
    an entry under its compound key "bg:Red", the bare-name entry is not
    consulted and the filter keeps Robot. *)
Lemma C8_counterexample :
  (incompatible_traits Examples.config_forced = Some {["bg:Red" := ["body:Robot"]]}
   ∧ (fun res => (fun c => (fun t => (type t, name t)) <$> traits c)
                   <$> combinations res.1)
       <$> generateCombinations Examples.config_forced 1 ∅ Examples.world3
     = Some [[("bg", "Red"); ("body", "Robot")]])
  ∧ Examples.rules_shadowed !! "Red" = Some ["Robot"]
  ∧ spec_conflict Examples.rules_shadowed Examples.red Examples.robot = true
  ∧ applyIncompatibilityRules Examples.config_shadowed [Examples.robot] [Examples.red]
    = [Examples.robot].
Proof. vm_compute. repeat split; reflexivity. Qed.

(** * Further properties of the code *)

(** ** String helpers *)

Lemma split_nonempty (c : ascii) (s : string) : JS.split c s ≠ [].
Proof.
  destruct s as [|x r]; cbn [JS.split]; [done|].
  destruct (Ascii.eqb x c); [done|]. by destruct (JS.split c r).
Qed.

Lemma split_cons_ne (c x : ascii) (r : string) :
  Ascii.eqb x c = false →
  JS.split c (String x r)
  = String x (hd "" (JS.split c r)) :: tl (JS.split c r).
Proof.
  intros Hne. cbn [JS.split]. rewrite Hne.
  pose proof (split_nonempty c r). by destruct (JS.split c r).
Qed.

Lemma split_cons_eq (c x : ascii) (r : string) :
  Ascii.eqb x c = true → JS.split c (String x r) = "" :: JS.split c r.
Proof. intros Heq. cbn [JS.split]. by rewrite Heq. Qed.

Lemma append_nil (s : string) : "" +:+ s = s.
Proof. reflexivity. Qed.

Lemma append_cons (x : ascii) (a s : string) :
  String x a +:+ s = String x (a +:+ s).
Proof. reflexivity. Qed.

Lemma split_hd_app (c : ascii) (a b : string) :
  hd "" (JS.split c (a +:+ String c b)) = hd "" (JS.split c a).
Proof.
  induction a as [|x a IH]; rewrite ?append_nil, ?append_cons.
  - by rewrite split_cons_eq by apply Ascii.eqb_refl.
  - destruct (Ascii.eqb x c) eqn:E.
    + by rewrite !split_cons_eq.
    + rewrite !split_cons_ne by done. cbn [hd]. by rewrite IH.
Qed.

Lemma split_no_separator (c : ascii) (s : string) :
  ¬ hasChar c s → JS.split c s = [s].
Proof.
  unfold hasChar. induction s as [|x r IH]; intros Hno; [done|].
  cbn [list_ascii_of_string] in Hno.
  destruct (Ascii.eqb_spec x c) as [->|Hne]; [exfalso; apply Hno; by left|].
  rewrite split_cons_ne by by apply Ascii.eqb_neq.
  rewrite IH; [done|]. intros Hin. apply Hno. by right.
Qed.

Lemma split_at_first_separator (c : ascii) (a b : string) :
  ¬ hasChar c a → JS.split c (a +:+ String c b) = a :: JS.split c b.
Proof.
  unfold hasChar. induction a as [|x a IH]; intros Hno;
    rewrite ?append_nil, ?append_cons.
  - by rewrite split_cons_eq by apply Ascii.eqb_refl.
  - cbn [list_ascii_of_string] in Hno.
    destruct (Ascii.eqb_spec x c) as [->|Hne]; [exfalso; apply Hno; by left|].
    rewrite split_cons_ne by by apply Ascii.eqb_neq.
    rewrite IH; [done|]. intros Hin. apply Hno. by right.
Qed.

Lemma split_hd_no_separator (c : ascii) (s : string) :
  ¬ hasChar c (hd "" (JS.split c s)).
Proof.
  unfold hasChar. induction s as [|x r IH]; [by intros []|].
  destruct (Ascii.eqb x c) eqn:E.
  - rewrite split_cons_eq by done. by intros [].
  - rewrite split_cons_ne by done. cbn [hd list_ascii_of_string].
    intros [->|Hin]; [by rewrite Ascii.eqb_refl in E | by apply IH].
Qed.

Lemma trimStart_chars (c : ascii) (s : string) :
  hasChar c (JS.trimStart s) → hasChar c s.
Proof.
  unfold hasChar. induction s as [|x r IH]; [done|]. cbn [JS.trimStart].
  destruct (JS.isWhiteSpace x); [|done]. intros Hin. right. by apply IH.
Qed.

Lemma trimEnd_chars (c : ascii) (s : string) :
  hasChar c (JS.trimEnd s) → hasChar c s.
Proof.
  unfold hasChar. induction s as [|x r IH]; [done|]. cbn [JS.trimEnd].
  destruct (JS.trimEnd r) as [|y t] eqn:E.
  - destruct (JS.isWhiteSpace x); [by intros []|].
    intros [->|[]]. by left.
  - intros [->|Hin]; [by left|]. right. by apply IH.
Qed.

Lemma trim_chars (c : ascii) (s : string) : hasChar c (JS.trim s) → hasChar c s.
Proof. intros H. by apply trimStart_chars, trimEnd_chars. Qed.

Lemma trimStart_head (s : string) :
  JS.trimStart s = ""
  ∨ ∃ x r, JS.trimStart s = String x r ∧ JS.isWhiteSpace x = false.
Proof.
  induction s as [|x r IH]; [by left|]. cbn [JS.trimStart].
  destruct (JS.isWhiteSpace x) eqn:E; [done|]. right. by exists x, r.
Qed.

Lemma trimEnd_cons_kept (x : ascii) (r : string) :
  JS.isWhiteSpace x = false → JS.trimEnd (String x r) = String x (JS.trimEnd r).
Proof. intros Hx. cbn [JS.trimEnd]. destruct (JS.trimEnd r); by rewrite ?Hx. Qed.

Lemma trimEnd_idempotent (s : string) : JS.trimEnd (JS.trimEnd s) = JS.trimEnd s.
Proof.
  induction s as [|x r IH]; [done|]. cbn [JS.trimEnd].
  destruct (JS.trimEnd r) as [|y t] eqn:E.
  - destruct (JS.isWhiteSpace x) eqn:Hx; [done|]. cbn [JS.trimEnd]. by rewrite Hx.
  - cbn [JS.trimEnd]. cbn [JS.trimEnd] in IH. by rewrite IH.
Qed.

Lemma trim_idempotent (s : string) : JS.trim (JS.trim s) = JS.trim s.
Proof.
  unfold JS.trim. destruct (trimStart_head s) as [->|(x & r & -> & Hx)]; [done|].
  rewrite trimEnd_cons_kept by done. cbn [JS.trimStart]. rewrite Hx.
  by rewrite <- trimEnd_cons_kept, trimEnd_idempotent.
Qed.

Lemma or_else_empty (s : string) : JS.or_else s "" = s.
Proof. by destruct s. Qed.

Lemma getTraitKeys_nameOnly (t : Trait) (keys : TraitKeys) :
  getTraitKeys t = Some keys →
  nameOnly keys = JS.trim (hd "" (JS.split "#" (name t))) ∧ nameOnly keys ≠ "".
Proof.
  unfold getTraitKeys. rewrite !or_else_empty.
  destruct (JS.trim _) as [|x r] eqn:E; [done|]. by intros [= <-].
Qed.

(** X1. A weight suffix after [#] in a trait name is invisible to the rules:
    the keys of ["base#suffix"] are those of ["base"], whatever the other
    fields of the trait. *)
Theorem X1_getTraitKeys_ignores_suffix (category base suffix : string)
    (w w' : Q) (p p' : string) (fr fr' : list string) :
  getTraitKeys (mkTrait category (base +:+ "#" +:+ suffix) w p fr)
  = getTraitKeys (mkTrait category base w' p' fr').
Proof.
  unfold getTraitKeys. cbn [name type]. rewrite !or_else_empty.
  change ("#" +:+ suffix) with (String "#" suffix).
  by rewrite split_hd_app.
Qed.

(** X2. Keys are in normal form: when [getTraitKeys] returns keys, the bare
    name is not empty, holds no [#], is unchanged by [trim], and the compound
    key is the category, a colon and the bare name. *)
Theorem X2_getTraitKeys_normal_form (t : Trait) (keys : TraitKeys) :
  getTraitKeys t = Some keys →
  nameOnly keys ≠ ""
  ∧ ¬ hasChar "#" (nameOnly keys)
  ∧ JS.trim (nameOnly keys) = nameOnly keys
  ∧ withType keys = type t +:+ ":" +:+ nameOnly keys.
Proof.
  intros Hkeys. destruct (getTraitKeys_nameOnly t keys Hkeys) as [Hname Hne].
  split; [done|]. split; [|split].
  - rewrite Hname. intros Hin%trim_chars. by apply split_hd_no_separator in Hin.
  - rewrite Hname. apply trim_idempotent.
  - by apply getTraitKeys_withType.
Qed.

Lemma X2_getTraitKeys_normal_form_witness :
  getTraitKeys (mkTrait "bg" "  Red #20" 1 "layers/bg/Red" ["1.png"])
  = Some (mkTraitKeys "Red" "bg:Red")
  ∧ JS.trim "Red" = "Red".
Proof.
  assert (H : getTraitKeys (mkTrait "bg" "  Red #20" 1 "layers/bg/Red" ["1.png"])
              = Some (mkTraitKeys "Red" "bg:Red")) by reflexivity.
  split; [exact H|].
  exact (proj1 (proj2 (proj2 (X2_getTraitKeys_normal_form _ _ H)))).
Defined.

Lemma getTraitNameFromConfigKey_compound (category rest : string) :
  ¬ hasChar ":" category →
  getTraitNameFromConfigKey (category +:+ ":" +:+ rest)
  = JS.trim (hd "" (JS.split ":" rest)).
Proof.
  intros Hc. unfold getTraitNameFromConfigKey.
  change (":" +:+ rest) with (String ":" rest).
  rewrite split_at_first_separator by done.
  pose proof (split_nonempty ":" rest) as Hne.
  destruct (JS.split ":" rest) as [|piece pieces]; [done|].
  cbn. by rewrite or_else_empty.
Qed.

(** X3. [getTraitNameFromConfigKey] returns the trimmed key when the key has
    no colon, and otherwise the trimmed text between the first colon and the
    next one (the whole remainder when there is no further colon). *)
Theorem X3_getTraitNameFromConfigKey_parts :
  (∀ key, ¬ hasChar ":" key → getTraitNameFromConfigKey key = JS.trim key)
  ∧ (∀ category rest,
       ¬ hasChar ":" category →
       getTraitNameFromConfigKey (category +:+ ":" +:+ rest)
       = JS.trim (hd "" (JS.split ":" rest)))
  ∧ (∀ category optionName,
       ¬ hasChar ":" category → ¬ hasChar ":" optionName →
       getTraitNameFromConfigKey (category +:+ ":" +:+ optionName)
       = JS.trim optionName).
Proof.
  split; [|split; [apply getTraitNameFromConfigKey_compound|]].
  - intros key Hno. unfold getTraitNameFromConfigKey.
    rewrite split_no_separator by done. cbn. by rewrite or_else_empty.
  - intros category optionName Hc Hn.
    rewrite getTraitNameFromConfigKey_compound by done.
    by rewrite split_no_separator.
Qed.

Lemma X3_getTraitNameFromConfigKey_parts_witness :
  getTraitNameFromConfigKey " Red " = "Red"
  ∧ getTraitNameFromConfigKey "bg: Red :x" = "Red".
Proof.
  destruct X3_getTraitNameFromConfigKey_parts as (Hbare & Hcompound & _).
  split.
  - apply (Hbare " Red "). vm_compute. intuition discriminate.
  - apply (Hcompound "bg" " Red :x"). vm_compute. intuition discriminate.
Defined.

(** X4. The category written in a compound trigger key does not restrict
    the match: a selected trait whose bare name is [N] triggers a rule keyed
    ["other:N"] for every category [other], because the callback also compares
    the bare name with the name part of the key. *)
Theorem X4_trigger_key_category_not_checked (t : Trait) (keys : TraitKeys)
    (other : string) :
  getTraitKeys t = Some keys →
  ¬ hasChar ":" (nameOnly keys) → ¬ hasChar ":" other →
  matchesConfigKey (other +:+ ":" +:+ nameOnly keys) t = true.
Proof.
  intros Hkeys Hname Hother. unfold matchesConfigKey. rewrite Hkeys.
  rewrite getTraitNameFromConfigKey_compound by done.
  rewrite split_no_separator by done. cbn [hd].
  assert (Htrim : JS.trim (nameOnly keys) = nameOnly keys).
  { destruct (getTraitKeys_nameOnly t keys Hkeys) as [-> _]. apply trim_idempotent. }
  rewrite Htrim, String.eqb_refl. apply orb_true_r.
Qed.

Lemma X4_trigger_key_category_not_checked_witness :
  getTraitKeys Examples.red = Some (mkTraitKeys "Red" "bg:Red")
  ∧ matchesConfigKey "hat:Red" Examples.red = true.
Proof.
  assert (H : getTraitKeys Examples.red = Some (mkTraitKeys "Red" "bg:Red"))
    by reflexivity.
  split; [exact H|].
  apply (X4_trigger_key_category_not_checked Examples.red _ "hat" H);
    vm_compute; intuition discriminate.
Defined.

(** ** The rule filters, continued *)

Lemma existsb_true {A} (f : A → bool) (l : list A) :
  existsb f l = true ↔ ∃ x, x ∈ l ∧ f x = true.
Proof.
  rewrite existsb_exists. split; intros (x & Hx & Hf); exists x;
    by rewrite ?list_elem_of_In in *.
Qed.

Lemma includes_elem (xs : list string) (x : string) :
  JS.includes xs x = true ↔ x ∈ xs.
Proof.
  unfold JS.includes. rewrite existsb_exists. split.
  - intros (y & Hy & ->%String.eqb_eq). by apply list_elem_of_In.
  - intros Hx. exists x. split; [by apply list_elem_of_In | apply String.eqb_refl].
Qed.

Lemma filter_sublist {A} (f : A → bool) (l : list A) : List.filter f l `sublist_of` l.
Proof.
  induction l as [|x l IH]; cbn; [constructor|].
  destruct (f x); by constructor.
Qed.

Lemma filter_all {A} (f : A → bool) (l : list A) :
  (∀ x, x ∈ l → f x = true) → List.filter f l = l.
Proof.
  induction l as [|x l IH]; intros Hall; cbn; [done|].
  rewrite (Hall x) by by left. f_equal. apply IH. intros y Hy. apply Hall. by right.
Qed.

Lemma keeps_against (rules : gmap string (list string)) (a b : Trait) :
  match getTraitKeys a with
  | None => true
  | Some ka => negb (existsb (conflictsWith rules ka) [b])
  end
  = match getTraitKeys b with
    | None => true
    | Some kb => negb (existsb (conflictsWith rules kb) [a])
    end.
Proof.
  unfold conflictsWith.
  destruct (getTraitKeys a) as [ka|] eqn:Ea, (getTraitKeys b) as [kb|] eqn:Eb;
    cbn [existsb]; rewrite ?Ea, ?Eb, ?orb_false_r; try done.
  by rewrite orb_comm.
Qed.

(** X5. The incompatibility test is symmetric: a candidate [a] survives the
    filter against a selected [b] exactly when [b] would survive it against a
    selected [a]; the order in which two categories are processed does not
    change which pairs are excluded. *)
Theorem X5_incompatibility_symmetric (config : GeneratorConfig) (a b : Trait) :
  applyIncompatibilityRules config [a] [b] = [a]
  ↔ applyIncompatibilityRules config [b] [a] = [b].
Proof.
  unfold applyIncompatibilityRules.
  destruct (incompatible_traits config) as [rules|]; [|done].
  cbn [List.filter]. rewrite (keeps_against rules a b).
  destruct (match getTraitKeys b with
            | Some kb => negb (existsb (conflictsWith rules kb) [a])
            | None => true
            end); split; done.
Qed.

(** X6. The two filters only remove candidates: their results are sublists
    of the candidates (same order, nothing added), and with nothing selected
    yet both return all the candidates. *)
Theorem X6_filters_only_remove (config : GeneratorConfig) (traitType : string)
    (availableTraits selectedTraits : list Trait) :
  applyIncompatibilityRules config availableTraits selectedTraits
    `sublist_of` availableTraits
  ∧ applyExclusiveGroupRules config traitType availableTraits selectedTraits
    `sublist_of` availableTraits
  ∧ applyIncompatibilityRules config availableTraits [] = availableTraits
  ∧ applyExclusiveGroupRules config traitType availableTraits [] = availableTraits.
Proof.
  unfold applyIncompatibilityRules, applyExclusiveGroupRules.
  repeat split.
  - destruct (incompatible_traits config); [apply filter_sublist | done].
  - destruct (exclusive_groups config) as [groups|]; [|done].
    destruct (List.find _ groups) as [[g group]|]; [|done].
    destruct (existsb _ selectedTraits); [apply filter_sublist | done].
  - destruct (incompatible_traits config); [|done].
    apply filter_all. intros t _. by destruct (getTraitKeys t).
  - destruct (exclusive_groups config) as [groups|]; [|done].
    by destruct (List.find _ groups) as [[g group]|].
Qed.

Lemma selectedFromGroup_spec (group : list string) (selectedTraits : list Trait) :
  existsb
    (fun selected =>
       match getTraitKeys selected with
       | None => false
       | Some keys =>
           JS.includes group (nameOnly keys) || JS.includes group (withType keys)
       end)
    selectedTraits = true
  ↔ Exists (inGroup group) selectedTraits.
Proof.
  rewrite existsb_true, Exists_exists. unfold inGroup.
  split; intros (s & Hs & H); exists s; (split; [done|]).
  - destruct (getTraitKeys s) as [keys|]; [|done]. exists keys. split; [done|].
    apply orb_true_iff in H. by rewrite <- !includes_elem.
  - destruct H as (keys & -> & H). apply orb_true_iff. by rewrite !includes_elem.
Qed.

(** X7. The exclusive-group filter, for the first group whose member list
    names the category being processed: if some selected trait is named by that
    list, the result is exactly the candidates that the list does not name;
    otherwise all candidates are kept. *)
Theorem X7_exclusive_group_filter (config : GeneratorConfig) (traitType : string)
    (availableTraits selectedTraits : list Trait)
    (groups : list (string * list string)) (groupName : string) (group : list string) :
  exclusive_groups config = Some groups →
  List.find (fun e => JS.includes (snd e) traitType) groups = Some (groupName, group) →
  let result :=
    applyExclusiveGroupRules config traitType availableTraits selectedTraits in
  (Exists (inGroup group) selectedTraits →
   ∀ t, t ∈ result ↔ t ∈ availableTraits ∧ ¬ inGroup group t)
  ∧ (¬ Exists (inGroup group) selectedTraits → result = availableTraits).
Proof.
  intros Hgroups Hfind result. subst result. unfold applyExclusiveGroupRules.
  rewrite Hgroups, Hfind.
  destruct (existsb _ selectedTraits) eqn:Hsel.
  - apply selectedFromGroup_spec in Hsel. split; [|done]. intros _ t.
    rewrite filter_elem. apply and_iff_compat_l. unfold inGroup.
    destruct (getTraitKeys t) as [keys|].
    + rewrite andb_true_iff, !negb_true_iff. split.
      * intros [Hn Hw] (keys' & [= <-] & [Hin|Hin]);
          apply includes_elem in Hin; congruence.
      * intros Hnot. split; apply not_true_is_false; intros Hin%includes_elem;
          apply Hnot; exists keys; auto.
    + split; [|done]. by intros _ (keys & ? & _).
  - split; [|done]. intros Hex%selectedFromGroup_spec. congruence.
Qed.

Lemma X7_exclusive_group_filter_witness :
  let config := mkConfig ["bg"; "hat"] None None None
                         (Some [("headwear", ["hat"; "Crown"; "bg:Red"])]) None in
  let crown := Examples.trait "hat" "Crown" "layers/hat/Crown" in
  let cap := Examples.trait "hat" "Cap" "layers/hat/Cap" in
  Exists (inGroup ["hat"; "Crown"; "bg:Red"]) [Examples.red]
  ∧ crown ∉ applyExclusiveGroupRules config "hat" [crown; cap] [Examples.red].
Proof.
  intros config crown cap.
  assert (Hsel : Exists (inGroup ["hat"; "Crown"; "bg:Red"]) [Examples.red]).
  { constructor. exists (mkTraitKeys "Red" "bg:Red"). split; [reflexivity|].
    right. cbn. repeat constructor. }
  split; [exact Hsel|].
  destruct (X7_exclusive_group_filter config "hat" [crown; cap] [Examples.red]
              [("headwear", ["hat"; "Crown"; "bg:Red"])] "headwear"
              ["hat"; "Crown"; "bg:Red"] eq_refl eq_refl) as [Hhit _].
  intros [_ Hnot]%(Hhit Hsel). apply Hnot.
  exists (mkTraitKeys "Crown" "hat:Crown"). split; [reflexivity|].
  left. cbn. repeat constructor.
Defined.

Lemma setWeightOfFirst_withoutWeight (p : Trait → bool) (newWeight : Q)
    (ts : list Trait) :
  withoutWeight <$> setWeightOfFirst p newWeight ts = withoutWeight <$> ts.
Proof.
  induction ts as [|t rest IH]; cbn; [done|].
  destruct (p t); cbn; [done|]. by rewrite IH.
Qed.

Lemma JSON_clone_id (ts : list Trait) : JSON_clone ts = ts.
Proof.
  unfold JSON_clone. induction ts as [|[] rest IH]; cbn; [done|]. by rewrite IH.
Qed.

Lemma setWeightOfFirst_lookup_other (p : Trait → bool) (newWeight : Q)
    (ts : list Trait) (i : nat) (t : Trait) :
  ts !! i = Some t → p t = false → setWeightOfFirst p newWeight ts !! i = Some t.
Proof.
  revert i. induction ts as [|x rest IH]; intros i Hi Hp; [done|].
  cbn [setWeightOfFirst]. destruct i as [|i]; cbn in Hi.
  - injection Hi as ->. by rewrite Hp.
  - destruct (p x); [done|]. cbn. by apply IH.
Qed.

(** X8. Conditional rarity changes weights only: the result has the same
    candidates in the same order with the same category, name, path and frames;
    and when the table is absent or no rule's trigger is among the selected
    traits, the candidates are returned with their weights unchanged. *)
Theorem X8_conditional_rarity_changes_weights_only (config : GeneratorConfig)
    (availableTraits selectedTraits : list Trait) :
  withoutWeight <$> applyConditionalRarity config availableTraits selectedTraits
  = withoutWeight <$> availableTraits
  ∧ ((∀ rules, conditional_rarity config = Some rules →
        Forall (fun rule => existsb (matchesConfigKey (fst rule)) selectedTraits = false)
               rules) →
     applyConditionalRarity config availableTraits selectedTraits = availableTraits).
Proof.
  unfold applyConditionalRarity.
  destruct (conditional_rarity config) as [rules|]; [|done].
  rewrite JSON_clone_id. split.
  - generalize availableTraits.
    induction rules as [|[conditionKey adjustments] rules IH]; intros adjusted;
      cbn [fold_left fst snd]; [done|].
    rewrite IH. destruct (existsb _ selectedTraits); [|done].
    clear IH. revert adjusted.
    induction adjustments as [|[targetKey newWeight] adjustments IH]; intros adjusted;
      cbn [fold_left fst snd]; [done|].
    by rewrite IH, setWeightOfFirst_withoutWeight.
  - intros Hnone. specialize (Hnone rules eq_refl).
    generalize availableTraits.
    induction Hnone as [|[conditionKey adjustments] rules Hrule _ IH]; intros adjusted;
      cbn [fold_left fst snd]; [done|].
    cbn [fst] in Hrule. by rewrite Hrule, IH.
Qed.

(** X9. Conditional rarity leaves alone every candidate that no adjustment
    aims at: such a candidate is found at the same position with the same
    weight, whatever the other overrides do. *)
Theorem X9_conditional_rarity_frame (config : GeneratorConfig)
    (rules : list (string * list (string * Q)))
    (availableTraits selectedTraits : list Trait) (i : nat) (t : Trait) :
  conditional_rarity config = Some rules →
  availableTraits !! i = Some t →
  (∀ rule adjustment, rule ∈ rules → adjustment ∈ snd rule →
                      targetedBy (fst adjustment) t = false) →
  applyConditionalRarity config availableTraits selectedTraits !! i = Some t.
Proof.
  intros Hrules Hi Hnot. unfold applyConditionalRarity. rewrite Hrules, JSON_clone_id.
  clear Hrules. revert Hi. generalize availableTraits.
  induction rules as [|[conditionKey adjustments] rules IH]; intros adjusted Hi;
    cbn [fold_left fst snd]; [done|].
  apply IH; [intros rule adj Hr; apply Hnot; by right |].
  destruct (existsb _ selectedTraits); [|done].
  assert (Hadj : ∀ adjustment, adjustment ∈ adjustments →
            targetedBy (fst adjustment) t = false).
  { intros adj Hin. apply (Hnot (conditionKey, adjustments)); [by left | done]. }
  clear IH Hnot. revert adjusted Hi.
  induction adjustments as [|[targetKey newWeight] adjustments IH]; intros adjusted Hi;
    cbn [fold_left fst snd]; [done|].
  apply IH; [intros adj Hin; apply Hadj; by right|].
  apply setWeightOfFirst_lookup_other; [done|].
  apply (Hadj (targetKey, newWeight)). by left.
Qed.

Lemma X9_conditional_rarity_frame_witness :
  let config := mkConfig ["bg"; "body"] None None None None
                         (Some [("bg:Red", [("body:Robot", 0%Q)])]) in
  applyConditionalRarity config [Examples.human; Examples.robot] [Examples.red]
    !! 0%nat = Some Examples.human.
Proof.
  intros config.
  apply (X9_conditional_rarity_frame config [("bg:Red", [("body:Robot", 0%Q)])]);
    [reflexivity | reflexivity |].
  intros rule adjustment ->%list_elem_of_singleton ->%list_elem_of_singleton.
  reflexivity.
Defined.

(** ** The sampler, continued *)

(** X10. On a non-empty list the sampler never throws and returns one of
    the candidates; it leaves the store alone and consumes one random draw
    exactly when there are at least two candidates. *)
Theorem X10_sampler_returns_a_candidate (traits : list Trait) (w : World) :
  traits ≠ [] →
  ∃ t w',
    weightedRandomSelect traits w = (Ok t, w')
    ∧ t ∈ traits
    ∧ heap w' = heap w ∧ layerProcessor w' = layerProcessor w
    ∧ traitCache w' = traitCache w ∧ random_draws w' = random_draws w
    ∧ random_cursor w'
      = (random_cursor w + if (1 <? length traits)%nat then 1 else 0)%nat.
Proof.
  intros Hne. destruct traits as [|first [|second rest]]; [done| |].
  - exists first, w. cbn. repeat split; [by left | lia].
  - unfold weightedRandomSelect, bind, Math_random.
    destruct (weightedScan _ _) as [t|] eqn:Escan.
    + eexists t, _. split; [done|]. split; [by eapply weightedScan_elem|].
      cbn. repeat split. lia.
    + eexists _, _. split; [done|]. split; [by apply last_elem|].
      cbn. repeat split. lia.
Qed.

Lemma X10_sampler_returns_a_candidate_witness :
  ∃ t w',
    weightedRandomSelect [Examples.human; Examples.robot] Examples.world3 = (Ok t, w')
    ∧ t ∈ [Examples.human; Examples.robot]
    ∧ random_cursor w' = 1%nat.
Proof.
  destruct (X10_sampler_returns_a_candidate [Examples.human; Examples.robot]
              Examples.world3 ltac:(discriminate))
    as (t & w' & Hrun & Hin & _ & _ & _ & _ & Hcursor).
  by exists t, w'.
Defined.

(** ** The canonical signature *)

Lemma string_leb_trans (s1 s2 s3 : string) :
  String.leb s1 s2 = true → String.leb s2 s3 = true → String.leb s1 s3 = true.
Proof.
  unfold String.leb. revert s2 s3.
  induction s1 as [|a s1 IH]; intros [|b s2] [|c s3]; cbn [String.compare]; try done.
  unfold Ascii.compare.
  destruct (N.compare_spec (N_of_ascii a) (N_of_ascii b)),
           (N.compare_spec (N_of_ascii b) (N_of_ascii c)),
           (N.compare_spec (N_of_ascii a) (N_of_ascii c));
    try done; try lia.
  apply IH.
Qed.

Lemma sort_insert_comm (x y : string) (l : list string) :
  JS.sort_insert x (JS.sort_insert y l) = JS.sort_insert y (JS.sort_insert x l).
Proof.
  induction l as [|z l IH]; cbn [JS.sort_insert].
  - destruct (String.leb x y) eqn:Exy, (String.leb y x) eqn:Eyx; try done.
    + by rewrite (String.leb_antisym x y Exy Eyx).
    + destruct (String.leb_total x y); congruence.
  - destruct (String.leb x z) eqn:Exz, (String.leb y z) eqn:Eyz;
      cbn [JS.sort_insert]; rewrite ?Exz, ?Eyz.
    + destruct (String.leb x y) eqn:Exy, (String.leb y x) eqn:Eyx;
        rewrite ?Exz, ?Eyz; try done.
      * by rewrite (String.leb_antisym x y Exy Eyx).
      * destruct (String.leb_total x y); congruence.
    + destruct (String.leb y x) eqn:Eyx; [|done].
      by rewrite (string_leb_trans y x z Eyx Exz) in Eyz.
    + destruct (String.leb x y) eqn:Exy; [|done].
      by rewrite (string_leb_trans x y z Exy Eyz) in Exz.
    + by rewrite IH.
Qed.

Lemma sort_permutation (l l' : list string) : l ≡ₚ l' → JS.sort l = JS.sort l'.
Proof.
  unfold JS.sort. induction 1 as [|x l l' _ IH|x y l|l l' l'' _ IH1 _ IH2];
    cbn [foldr]; [done | by rewrite IH | apply sort_insert_comm | congruence].
Qed.

(** X13. The signature is canonical: it depends only on which categories
    and base names (the name up to the first [#]) a combination holds, not on
    the order of its traits, nor on its id, nor on weights, paths or frames. *)
Theorem X13_signature_is_canonical (c c' : TraitCombination) :
  (fun t => (type t, hd "" (JS.split "#" (name t)))) <$> traits c
  ≡ₚ (fun t => (type t, hd "" (JS.split "#" (name t)))) <$> traits c' →
  getCombinationKey c = getCombinationKey c'.
Proof.
  intros Hperm. unfold getCombinationKey. f_equal. apply sort_permutation.
  apply (fmap_Permutation (fun p : string * string => fst p +:+ ":" +:+ snd p)) in Hperm.
  by rewrite <- !list_fmap_compose in Hperm.
Qed.

Lemma X13_signature_is_canonical_witness :
  getCombinationKey (mkTraitCombination 1 [Examples.red; Examples.robot])
  = getCombinationKey
      (mkTraitCombination 7
         [mkTrait "body" "Robot#5" 5 "elsewhere" []; Examples.red]).
Proof.
  apply X13_signature_is_canonical. cbn. apply Permutation_swap.
Defined.

(** ** The batch loop, continued *)

Section BatchLoopIds.

Context {W : Type}.
Variable attempt : nat → W → Settled * W.
Hypothesis attempt_id :
  ∀ n w c, (attempt n w).1 = Fulfilled c → id c = n.

Lemma launchBatch_ids (base n i : nat) (w : W) (j : nat) (c : TraitCombination) :
  (launchBatch attempt base i n w).1 !! j = Some (Fulfilled c) →
  id c = (base + i + 1 + j)%nat.
Proof using attempt_id.
  revert i w j. induction n as [|n IH]; intros i w j; cbn [launchBatch]; [done|].
  pose proof (attempt_id (base + i + 1)%nat w) as Hid.
  destruct (attempt _ w) as [result w1].
  specialize (IH (S i) w1).
  destruct (launchBatch attempt base (S i) n w1) as [results w2].
  cbn [fst] in *. destruct j as [|j]; cbn.
  - intros [= ->]. rewrite (Hid c eq_refl). lia.
  - intros Hj. rewrite (IH j Hj). lia.
Qed.

Lemma processBatch_ids (count : nat) (results : list Settled) (k : nat) (st : Run) :
  (∀ j c, results !! j = Some (Fulfilled c) → id c = (k + j)%nat) →
  (∀ j c, combinations st !! j = Some c → (j < id c ≤ count)%nat) →
  (length (combinations st) < k)%nat →
  (k + length results ≤ count + 1)%nat →
  ∀ j c, combinations (fold_left processResult results st) !! j = Some c →
         (j < id c ≤ count)%nat.
Proof.
  revert k st. induction results as [|result rest IH]; intros k st Hids Hst Hlen Hk;
    cbn [fold_left]; [done|].
  cbn [length] in Hk.
  apply (IH (S k)).
  - intros j c Hj. rewrite (Hids (S j) c Hj). lia.
  - unfold processResult. destruct result as [c0|e]; [|by destruct (recoverable e)].
    case_bool_decide; [done|]. cbn [combinations].
    intros j c Hj. apply lookup_app_Some in Hj as [Hj|[Hge Hj]]; [by apply Hst|].
    apply list_lookup_singleton_Some in Hj as [Hz <-].
    rewrite (Hids 0%nat c0 eq_refl). lia.
  - pose proof (processResult_accepts_at_most_one st result). lia.
  - lia.
Qed.

Lemma generateLoop_ids (fuel count batchSize maxAttempts : nat) (st st' : Run)
    (w w' : W) :
  (∀ j c, combinations st !! j = Some c → (j < id c ≤ count)%nat) →
  generateLoop attempt fuel count batchSize maxAttempts st w = Some (st', w') →
  ∀ j c, combinations st' !! j = Some c → (j < id c ≤ count)%nat.
Proof using attempt_id.
  revert st w. induction fuel as [|fuel IH]; intros st w Hst; cbn [generateLoop].
  { destruct (_ && _); [done|]. by intros [= <- <-]. }
  destruct (Nat.ltb_spec (length (combinations st)) count) as [Hc|Hc];
    cbn [andb]; [|by intros [= <- <-]].
  destruct (_ <? _)%nat; [|by intros [= <- <-]].
  pose proof (launchBatch_ids (length (combinations st))
                (Nat.min batchSize (count - length (combinations st))) 0 w) as Hids.
  pose proof (launchBatch_length attempt (length (combinations st)) 0
                (Nat.min batchSize (count - length (combinations st))) w) as Hn.
  destruct (launchBatch attempt _ 0 _ w) as [results w1]. cbn [fst] in Hids, Hn.
  apply IH. apply (processBatch_ids count results (length (combinations st) + 1)).
  - intros j c Hj. rewrite (Hids j c Hj). lia.
  - done.
  - lia.
  - lia.
Qed.

End BatchLoopIds.

Section BatchLoopCounters.

Context {W : Type}.
Variable attempt : nat → W → Settled * W.

Lemma generateCombinationsWith_used (count : nat) (used : gset string) (w : W) :
  ∃ r w',
    generateCombinationsWith attempt count used w = Some (r, w')
    ∧ usedCombinations r
      = used ∪ list_to_set (getCombinationKey <$> combinations r).
Proof.
  destruct (generateCombinationsWith_returns attempt count used w)
    as (st & w' & Hgen & Hloop & _).
  exists (finish count st), w'. split; [done|].
  enough (usedCombinations st
          = used ∪ list_to_set (getCombinationKey <$> combinations st)) by done.
  eapply (generateLoop_invariant attempt (fun _ => True) (fun _ => True)
            (fun st => usedCombinations st
                       = used ∪ list_to_set (getCombinationKey <$> combinations st)));
    [done | | | done | exact Hloop].
  - intros st0 result Hst _. unfold processResult.
    destruct result as [c|e]; [|by destruct (recoverable e)].
    case_bool_decide; [done|]. cbn [usedCombinations combinations].
    rewrite Hst, fmap_app, list_to_set_app_L. cbn. clear. set_solver.
  - cbn. clear. set_solver.
Qed.

Hypothesis rejections_not_recoverable :
  ∀ n w e, (attempt n w).1 = Rejected e → recoverable e = false.

Lemma generateCombinationsWith_accounted (count : nat) (used : gset string) (w : W) :
  ∃ r w',
    generateCombinationsWith attempt count used w = Some (r, w')
    ∧ attempts r
      = (length (combinations r) + duplicates r
         + length (List.filter isFatalEntry (log r)))%nat.
Proof using rejections_not_recoverable.
  destruct (generateCombinationsWith_returns attempt count used w)
    as (st & w' & Hgen & Hloop & _).
  exists (finish count st), w'. split; [done|].
  assert (Hst : attempts st
                = (length (combinations st) + duplicates st
                   + length (List.filter isFatalEntry (log st)))%nat).
  { eapply (generateLoop_invariant attempt (fun _ => True)
              (fun s => match s with
                        | Rejected e => recoverable e = false
                        | Fulfilled _ => True
                        end)
              (fun st => attempts st
                         = (length (combinations st) + duplicates st
                            + length (List.filter isFatalEntry (log st)))%nat));
      [ | | | done | exact Hloop].
    - intros n w0 _. split; [done|].
      pose proof (rejections_not_recoverable n w0) as Hrej.
      destruct (attempt n w0).1; [done | by apply Hrej].
    - intros st0 result Hst0 Hres. unfold processResult.
      destruct result as [c|e].
      + case_bool_decide; cbn; rewrite ?length_app; cbn; lia.
      + rewrite Hres. cbn. rewrite List.filter_app, length_app. cbn. lia.
    - done. }
  unfold finish. cbn [attempts combinations duplicates log].
  rewrite Hst. f_equal.
  destruct (_ <? _)%nat; rewrite !List.filter_app; cbn; by rewrite ?app_nil_r.
Qed.

End BatchLoopCounters.

(** ** Errors of an attempt *)

Lemma throws_only_ret {A} (P : GeneratorError → Prop) (a : A) : throws_only P (ret a).
Proof. by intros w e. Qed.

Lemma throws_only_throw {A} (P : GeneratorError → Prop) (e : GeneratorError) :
  P e → throws_only P (@throw A e).
Proof. by intros He w e' [= <-]. Qed.

Lemma throws_only_bind {A B} (P : GeneratorError → Prop) (m : M A) (k : A → M B) :
  throws_only P m → (∀ a, throws_only P (k a)) → throws_only P (bind m k).
Proof.
  intros Hm Hk w e. unfold bind. specialize (Hm w).
  destruct (m w) as [[a|e'] w1]; cbn in *.
  - apply Hk.
  - intros [= <-]. by apply Hm.
Qed.

Lemma throws_only_getAvailableTraits (traitType : string) :
  throws_only thrown_by_attempt (getAvailableTraits traitType).
Proof.
  unfold getAvailableTraits. apply throws_only_bind; [by intros w e|].
  intros lp. destruct (lp_traitCache lp !! traitType); [apply throws_only_ret|].
  destruct (negb _).
  { apply throws_only_throw. split; [done | by left]. }
  destruct (hierarchy lp !! traitType);
    repeat (apply throws_only_bind; [by intros w e|]; intros ?);
    (apply throws_only_ret || by intros w e).
Qed.

Lemma throws_only_applyForcedPairings (config : GeneratorConfig) (traitType : string)
    (selectedTraits : list Trait) :
  throws_only thrown_by_attempt (applyForcedPairings config traitType selectedTraits).
Proof.
  unfold applyForcedPairings.
  destruct (forced_pairings config) as [entries|]; [|apply throws_only_ret].
  induction entries as [|[triggerKey forcedKey] rest IH];
    cbn [applyForcedPairings_entries]; cbv zeta; [apply throws_only_ret|].
  destruct (existsb _ selectedTraits); [|done].
  destruct (String.eqb _ traitType); [|done].
  destruct (negb _); [|done].
  apply throws_only_bind; [apply throws_only_getAvailableTraits|]. intros l.
  apply throws_only_bind; [by intros w e|]. intros available.
  destruct (List.find _ available); [apply throws_only_ret | done].
Qed.

Lemma throws_only_applyDependentTraits (config : GeneratorConfig)
    (selectedTraits : list Trait) :
  throws_only thrown_by_attempt (applyDependentTraits config selectedTraits).
Proof.
  unfold applyDependentTraits.
  destruct (dependent_traits config) as [entries|]; [|apply throws_only_ret].
  generalize (@nil Trait).
  induction entries as [|[triggerKey dependentKey] rest IH]; intros acc;
    cbn [applyDependentTraits_entries]; cbv zeta; [apply throws_only_ret|].
  destruct (existsb _ selectedTraits); [|done].
  destruct (negb _); [|done].
  apply throws_only_bind; [apply throws_only_getAvailableTraits|]. intros l.
  apply throws_only_bind; [by intros w e|]. intros candidates.
  destruct (List.find _ candidates); [|done].
  apply throws_only_bind; [by intros w e | done].
Qed.

Lemma throws_only_weightedRandomSelect (traits : list Trait) :
  throws_only thrown_by_attempt (weightedRandomSelect traits).
Proof.
  unfold weightedRandomSelect. destruct traits as [|first [|second rest]].
  - apply throws_only_throw. split; [done | by right].
  - apply throws_only_ret.
  - apply throws_only_bind; [by intros w e|]. intros r.
    destruct (weightedScan _ _); apply throws_only_ret.
Qed.

Lemma throws_only_generateSingleCombination (config : GeneratorConfig) (n : nat) :
  throws_only thrown_by_attempt (generateSingleCombination config n).
Proof.
  unfold generateSingleCombination.
  apply throws_only_bind; [|intros; apply throws_only_ret].
  generalize (@nil Trait).
  induction (trait_processing_order config) as [|traitType rest IH]; intros selected;
    cbn [selectLayers]; [apply throws_only_ret|].
  apply throws_only_bind; [|done].
  unfold selectForLayer.
  apply throws_only_bind; [by intros w e|]. intros cached.
  apply throws_only_bind.
  { destruct cached; [apply throws_only_ret|].
    apply throws_only_bind; [apply throws_only_getAvailableTraits|]. intros l.
    apply throws_only_bind; [by intros w e|]. intros _. apply throws_only_ret. }
  intros traits.
  apply throws_only_bind; [apply throws_only_applyForcedPairings|].
  intros [forced|]; [apply throws_only_ret|].
  apply throws_only_bind; [apply throws_only_applyDependentTraits|].
  intros dependentTraits. destruct (_ && _); [apply throws_only_ret|].
  apply throws_only_bind; [by intros w e|]. intros available.
  destruct (length _ =? 0)%nat.
  { apply throws_only_throw. split; [done | by right]. }
  apply throws_only_bind; [apply throws_only_weightedRandomSelect|].
  intros t. apply throws_only_ret.
Qed.

Lemma settle_id (config : GeneratorConfig) (n : nat) (w : World) (c : TraitCombination) :
  (settle (generateSingleCombination config n) w).1 = Fulfilled c → id c = n.
Proof.
  unfold settle, generateSingleCombination, bind.
  destruct (selectLayers _ _ _ w) as [[selected|e] w1]; cbn; [|done].
  by intros [= <-].
Qed.

Lemma settle_rejected (config : GeneratorConfig) (n : nat) (w : World)
    (e : GeneratorError) :
  (settle (generateSingleCombination config n) w).1 = Rejected e →
  thrown_by_attempt e.
Proof.
  pose proof (throws_only_generateSingleCombination config n w) as Hthrow.
  unfold settle.
  destruct (generateSingleCombination config n w) as [[c|e'] w1]; cbn in *; [done|].
  intros [= <-]. by apply Hthrow.
Qed.

(** X14. Uniqueness carries over from one call to the next on the same
    selector: after a call the set of used signatures is the set before it
    plus the signatures of the combinations returned, so a second call never
    returns a combination with the signature of one returned by the first. *)
Theorem X14_signatures_distinct_across_calls (config : GeneratorConfig)
    (count1 count2 : nat) (used : gset string) (w : World) :
  ∃ r1 w1 r2 w2,
    generateCombinations config count1 used w = Some (r1, w1)
    ∧ generateCombinations config count2 (usedCombinations r1) w1 = Some (r2, w2)
    ∧ usedCombinations r1
      = used ∪ list_to_set (getCombinationKey <$> combinations r1)
    ∧ ∀ c1 c2, c1 ∈ combinations r1 → c2 ∈ combinations r2 →
               getCombinationKey c1 ≠ getCombinationKey c2.
Proof.
  destruct (generateCombinationsWith_used
              (fun n => settle (generateSingleCombination config n)) count1 used w)
    as (r1 & w1 & Hgen1 & Hused).
  destruct (generateCombinationsWith_deduplicated
              (fun n => settle (generateSingleCombination config n)) count2
              (usedCombinations r1) w1)
    as (r2 & w2 & Hgen2 & _ & _ & Hfresh).
  exists r1, w1, r2, w2. split; [done|]. split; [done|]. split; [done|].
  intros c1 c2 Hc1 Hc2 Heq. destruct (Hfresh c2 Hc2) as [_ Hnot]. apply Hnot.
  rewrite Hused, <- Heq. apply elem_of_union_r, elem_of_list_to_set.
  by apply list_elem_of_fmap_2.
Qed.

(** X15. Ids stay within bounds: the combination accepted in position [j]
    (counting from 1) carries an id that is at least [j] and at most [count]. *)
Theorem X15_ids_between_position_and_count (config : GeneratorConfig) (count : nat)
    (used : gset string) (w : World) :
  ∃ r w',
    generateCombinations config count used w = Some (r, w')
    ∧ ∀ j c, combinations r !! j = Some c → (j + 1 ≤ id c ≤ count)%nat.
Proof.
  destruct (generateCombinationsWith_returns
              (fun n => settle (generateSingleCombination config n)) count used w)
    as (st & w' & Hgen & Hloop & _).
  exists (finish count st), w'. split; [done|]. intros j c Hj.
  enough (j < id c ≤ count)%nat by lia.
  eapply (generateLoop_ids (fun n => settle (generateSingleCombination config n)));
    [apply settle_id | | exact Hloop | exact Hj].
  by intros j' c' Hj'.
Qed.

(** ** Failed attempts *)

Section BatchLoopTrace.

Context {W : Type}.
Variable attempt : nat → W → Settled * W.

Lemma settleAll_app (ids1 ids2 : list nat) (w : W) :
  settleAll attempt (ids1 ++ ids2) w
  = ((settleAll attempt ids1 w).1
       ++ (settleAll attempt ids2 (settleAll attempt ids1 w).2).1,
     (settleAll attempt ids2 (settleAll attempt ids1 w).2).2).
Proof.
  revert w. induction ids1 as [|n ids1 IH]; intros w; cbn [settleAll app].
  - cbn. by destruct (settleAll attempt ids2 w).
  - destruct (attempt n w) as [result w1]. rewrite IH.
    destruct (settleAll attempt ids1 w1) as [results w2]. cbn.
    by destruct (settleAll attempt ids2 w2).
Qed.

Lemma launchBatch_settleAll (base i n : nat) (w : W) :
  launchBatch attempt base i n w
  = settleAll attempt ((fun k => (base + k + 1)%nat) <$> seq i n) w.
Proof.
  revert i w. induction n as [|n IH]; intros i w; cbn; [done|].
  destruct (attempt _ w) as [result w1]. by rewrite IH.
Qed.

(** The loop state on exit is the fold of [processResult] over the results
    of the attempts that were run, in the order they were launched. *)
Lemma generateLoop_trace (fuel count batchSize maxAttempts : nat) (st st' : Run)
    (w w' : W) :
  generateLoop attempt fuel count batchSize maxAttempts st w = Some (st', w') →
  ∃ ids results,
    settleAll attempt ids w = (results, w')
    ∧ st' = fold_left processResult results st.
Proof.
  revert st w. induction fuel as [|fuel IH]; intros st w; cbn [generateLoop];
    destruct (_ && _); try done; try (intros [= <- <-]; by exists [], []).
  rewrite launchBatch_settleAll.
  set (batch := (fun k => (length (combinations st) + k + 1)%nat) <$> seq 0 _).
  destruct (settleAll attempt batch w) as [batchResults w1] eqn:Ebatch.
  intros (ids & results & Hrest & ->)%IH.
  exists (batch ++ ids), (batchResults ++ results).
  rewrite settleAll_app, Ebatch. cbn. rewrite Hrest. cbn.
  by rewrite fold_left_app.
Qed.

Lemma settleAll_Forall (PS : Settled → Prop) :
  (∀ n w, PS (attempt n w).1) →
  ∀ ids w, Forall PS (settleAll attempt ids w).1.
Proof.
  intros Hattempt ids. induction ids as [|n ids IH]; intros w; cbn; [constructor|].
  specialize (Hattempt n w). destruct (attempt n w) as [result w1].
  specialize (IH w1). destruct (settleAll attempt ids w1) as [results w2].
  cbn in *. by constructor.
Qed.

End BatchLoopTrace.

Lemma fatalLog_complete (k : nat) (results : list Settled) (n : nat)
    (error : GeneratorError) :
  results !! n = Some (Rejected error) → recoverable error = false →
  LogFatalAttempt (S (k + n)) error ∈ fatalLog k results.
Proof.
  revert k n. induction results as [|result rest IH]; intros k n Hn Hrec; [done|].
  destruct n as [|n]; cbn in Hn.
  - injection Hn as ->. cbn [fatalLog]. rewrite Hrec, Nat.add_0_r. by left.
  - specialize (IH (S k) n Hn Hrec). replace (S (k + S n)) with (S (S k + n)) by lia.
    cbn [fatalLog]. destruct result as [c|e]; [done|].
    destruct (recoverable e); [done | by right].
Qed.

(** C6. Failed attempts and an exhausted space of combinations never make
    [generateCombinations] raise, and a failed attempt does not end the run.
    With [results] the settled attempts of the call, in the order they were
    launched: the call returns at most [count] combinations, and it returns
    only once [count] combinations are accepted or [count * 10] attempts have
    settled; every settled attempt is counted, as an accepted combination, a
    duplicate or a logged failure; every rejected attempt is written to the log
    with its attempt number (none carries the recoverable flag, so none is
    skipped), and the log holds these entries, the report of a shortfall,
    which is logged and not thrown, and the closing summary, nothing else.
    The processing of any batch goes through every settled result, logging
    exactly the rejections that are not recoverable. *)
Theorem C6_failures_never_raise (config : GeneratorConfig) (count : nat)
    (used : gset string) (w : World) :
  (∃ ids results r w',
     settleAll (fun n => settle (generateSingleCombination config n)) ids w
     = (results, w')
     ∧ generateCombinations config count used w = Some (r, w')
     ∧ (length (combinations r) ≤ count)%nat
     ∧ (length (combinations r) = count ∨ (count * 10 ≤ attempts r)%nat)
     ∧ attempts r = length results
     ∧ attempts r
       = (length (combinations r) + duplicates r
          + length (List.filter isFatalEntry (log r)))%nat
     ∧ (∀ n error, results !! n = Some (Rejected error) →
                   LogFatalAttempt (S n) error ∈ log r)
     ∧ log r
       = fatalLog 0 results
           ++ (if (length (combinations r) <? count)%nat
               then [LogShortfall (length (combinations r)) count (attempts r)]
               else [])
           ++ [LogCompleted (length (combinations r)) (attempts r) (duplicates r)]
     ∧ ((length (combinations r) < count)%nat →
        LogShortfall (length (combinations r)) count (attempts r) ∈ log r)
     ∧ (∀ n error, LogFatalAttempt n error ∈ log r →
                   recoverable error = false ∧ (1 ≤ n ≤ attempts r)%nat))
  ∧ (∀ results st,
       let st' := fold_left processResult results st in
       attempts st' = (attempts st + length results)%nat
       ∧ log st' = log st ++ fatalLog (attempts st) results).
Proof.
  split; [|intros results st; destruct (processBatch results st) as (Ha & _ & Hl);
           by split].
  set (attempt := fun n => settle (generateSingleCombination config n)).
  assert (Hrej : ∀ n w0 e, (attempt n w0).1 = Rejected e → recoverable e = false).
  { intros n w0 e He. by destruct (settle_rejected config n w0 e He). }
  destruct (generateCombinationsWith_returns attempt count used w)
    as (st & w' & Hgen & Hloop & Hlen & _ & Hexit).
  destruct (generateCombinationsWith_log attempt count used w)
    as (r2 & w2 & Hgen2 & Hsound).
  destruct (generateCombinationsWith_accounted attempt Hrej count used w)
    as (r3 & w3 & Hgen3 & Hcount).
  rewrite Hgen in Hgen2, Hgen3. injection Hgen2 as <- <-. injection Hgen3 as <- _.
  destruct (generateLoop_trace attempt _ _ _ _ _ _ _ _ Hloop)
    as (ids & results & Htrace & Hst).
  destruct (processBatch results (mkRun [] 0 0 used [])) as (Hatt & _ & Hlog).
  cbv zeta in Hatt, Hlog. rewrite <- Hst in Hatt, Hlog. cbn in Hatt, Hlog.
  assert (Hlogr : log (finish count st)
            = fatalLog 0 results
                ++ (if (length (combinations st) <? count)%nat
                    then [LogShortfall (length (combinations st)) count (attempts st)]
                    else [])
                ++ [LogCompleted (length (combinations st)) (attempts st)
                                 (duplicates st)]).
  { unfold finish. cbn [log]. rewrite Hlog.
    destruct (_ <? _)%nat; by rewrite <- ?app_assoc, ?app_nil_r. }
  exists ids, results, (finish count st), w'.
  split; [exact Htrace|]. split; [exact Hgen|]. split; [exact Hlen|].
  split; [cbn [finish combinations attempts]; lia|].
  split; [exact Hatt|]. split; [exact Hcount|].
  split; [|split; [exact Hlogr|split; [|exact Hsound]]].
  - intros n error Hn. rewrite Hlogr. apply elem_of_app. left.
    apply (fatalLog_complete 0 results n error Hn).
    assert (Hall : Forall (fun s => match s with
                                    | Rejected e => recoverable e = false
                                    | Fulfilled _ => True
                                    end) (settleAll attempt ids w).1).
    { apply settleAll_Forall. intros n0 w0. pose proof (Hrej n0 w0) as Hn0.
      destruct (attempt n0 w0).1; [done | by apply Hn0]. }
    rewrite Htrace in Hall. cbn in Hall.
    by apply (proj1 (Forall_lookup _ _) Hall n (Rejected error)).
  - intros Hshort. rewrite Hlogr. cbn [finish combinations attempts] in Hshort |- *.
    apply Nat.ltb_lt in Hshort. rewrite Hshort.
    apply elem_of_app. right. by left.
Qed.

(** ** The catalog cache *)

Lemma collectLeafTraits_node_frames (traitType : string) :
  ∀ (traitObj : TraitNode) (traitName : string),
    Forall (fun t => frames t ≠ [])
           (collectLeafTraits_node traitType traitName traitObj).
Proof.
  fix IH 1. intros [w p fr sub] traitName. cbn [collectLeafTraits_node].
  destruct fr as [|f fr]; cbn [length Nat.ltb Nat.leb].
  - destruct sub as [subs|]; [|constructor].
    induction subs as [|[nm child] rest IHrest]; [constructor|].
    apply Forall_app. split; [apply IH | apply IHrest].
  - by repeat constructor.
Qed.

Lemma collectLeafTraits_frames (traitData : list (string * TraitNode))
    (traitType : string) :
  Forall (fun t => frames t ≠ []) (collectLeafTraits traitData traitType).
Proof.
  unfold collectLeafTraits. induction traitData as [|[nm node] rest IH]; cbn.
  - constructor.
  - apply Forall_app. split; [apply collectLeafTraits_node_frames | exact IH].
Qed.

Lemma not_validated (validation : option bool) :
  validation ≠ Some true → negb (default false validation) = true.
Proof. by destruct validation as [[]|]. Qed.

(** X17. [getAvailableTraits] and its cache.  For a category that is not
    cached, a layer processor that was not validated successfully throws a
    validation error and leaves the store as it was.  After a call that
    succeeds, a second call for the same category succeeds without touching the
    store and yields a list with the same contents, all of that category. *)
Theorem X17_getAvailableTraits_cache (traitType : string) (w : World) :
  world_ok w →
  (lp_traitCache (layerProcessor w) !! traitType = None →
   validationResult (layerProcessor w) ≠ Some true →
   ∃ e, getAvailableTraits traitType w = (Throw e, w)
        ∧ etype e = VALIDATION_ERROR ∧ recoverable e = false)
  ∧ (∀ l w1,
       getAvailableTraits traitType w = (Ok l, w1) →
       ∃ l' arr,
         getAvailableTraits traitType w1 = (Ok l', w1)
         ∧ heap w1 !! l = Some arr ∧ heap w1 !! l' = Some arr
         ∧ Forall (fun t => type t = traitType) arr).
Proof.
  intros Hw. unfold getAvailableTraits, bind, getLayerProcessor. cbn [fst snd]. split.
  - intros Hmiss Hvalid. rewrite Hmiss, (not_validated _ Hvalid). by eexists.
  - intros l w1.
    destruct (lp_traitCache (layerProcessor w) !! traitType) as [cached|] eqn:Ecache.
    + intros [= <- <-]. rewrite Ecache.
      destruct (proj1 Hw traitType cached Ecache) as (arr & Harr & Htyped).
      by exists cached, arr.
    + destruct (negb _); [done|].
      destruct (hierarchy (layerProcessor w) !! traitType) as [traitTypeTraits|].
      * intros [= <- <-]. cbn. rewrite lookup_insert_eq.
        exists (length (heap w)), (collectLeafTraits traitTypeTraits traitType).
        split; [done|]. rewrite lookup_app_r, Nat.sub_diag by done.
        repeat split. apply collectLeafTraits_typed.
      * intros [= <- <-]. cbn. rewrite lookup_insert_eq.
        exists (length (heap w)), []. split; [done|].
        rewrite lookup_app_r by (rewrite length_app; cbn; lia).
        rewrite length_app. cbn [length].
        replace (length (heap w) + 1 - (length (heap w) + 1))%nat with 0%nat by lia.
        split; [done|].
        rewrite lookup_app_l by (rewrite length_app; cbn; lia).
        rewrite lookup_app_r, Nat.sub_diag by done. by repeat split.
Qed.

Lemma X17_getAvailableTraits_cache_witness :
  world_ok Examples.world3
  ∧ ∃ l w1 l' arr,
      getAvailableTraits "body" Examples.world3 = (Ok l, w1)
      ∧ getAvailableTraits "body" w1 = (Ok l', w1)
      ∧ heap w1 !! l = Some arr ∧ heap w1 !! l' = Some arr.
Proof.
  assert (Hw : world_ok Examples.world3).
  { split; intros traitType l Hl; cbn in Hl; by rewrite lookup_empty in Hl. }
  split; [exact Hw|].
  destruct (getAvailableTraits "body" Examples.world3) as [[l|e] w1] eqn:Hrun;
    [|by vm_compute in Hrun].
  destruct (proj2 (X17_getAvailableTraits_cache "body" Examples.world3 Hw) l w1 Hrun)
    as (l' & arr & Hagain & Hl & Hl' & _).
  by exists l, w1, l', arr.
Defined.

(** X18. A cache miss on a validated layer processor builds the list from
    the hierarchy: the leaves found under the category, in entry order (none
    for a category the hierarchy does not have), each tagged with the category
    and holding at least one frame; the list is cached, and the arrays that
    existed before are untouched. *)
Theorem X18_getAvailableTraits_builds_from_hierarchy (traitType : string)
    (w : World) :
  lp_traitCache (layerProcessor w) !! traitType = None →
  validationResult (layerProcessor w) = Some true →
  let leaves :=
    match hierarchy (layerProcessor w) !! traitType with
    | Some traitTypeTraits => collectLeafTraits traitTypeTraits traitType
    | None => []
    end in
  ∃ l w1,
    getAvailableTraits traitType w = (Ok l, w1)
    ∧ heap w1 !! l = Some leaves
    ∧ cachedTraits w1 traitType = Some leaves
    ∧ Forall (fun t => type t = traitType ∧ frames t ≠ []) leaves
    ∧ (∀ l0 arr, heap w !! l0 = Some arr → heap w1 !! l0 = Some arr).
Proof.
  intros Hmiss Hvalid leaves. subst leaves.
  unfold getAvailableTraits, bind, getLayerProcessor, cachedTraits. cbn [fst snd].
  rewrite Hmiss, Hvalid. cbn [default negb].
  destruct (hierarchy (layerProcessor w) !! traitType) as [traitTypeTraits|].
  - eexists _, _. split; [done|]. cbn. rewrite lookup_insert_eq.
    rewrite lookup_app_r, Nat.sub_diag by done. repeat split.
    + apply Forall_and. split;
        [apply collectLeafTraits_typed | apply collectLeafTraits_frames].
    + intros l0 arr Hl0. by rewrite lookup_app_l by by eapply lookup_lt_Some.
  - eexists _, _. split; [done|]. cbn. rewrite lookup_insert_eq.
    rewrite (lookup_app_r _ _ (length (heap w ++ [[]])))
      by done.
    rewrite Nat.sub_diag.
    rewrite lookup_app_l by (rewrite length_app; cbn; lia).
    rewrite lookup_app_r, Nat.sub_diag by done. repeat split; [done|].
    intros l0 arr Hl0. apply lookup_lt_Some in Hl0 as Hlt.
    rewrite !lookup_app_l; [done | done | rewrite length_app; lia].
Qed.

Lemma X18_getAvailableTraits_builds_from_hierarchy_witness :
  ∃ l w1,
    getAvailableTraits "body" Examples.world_dep = (Ok l, w1)
    ∧ cachedTraits w1 "body" = Some [Examples.human; Examples.robot].
Proof.
  destruct (X18_getAvailableTraits_builds_from_hierarchy "body" Examples.world_dep
              eq_refl eq_refl) as (l & w1 & Hrun & _ & Hcached & _).
  by exists l, w1.
Defined.

(** ** What generation does to the catalog *)

Section CatalogFrame.

Variable R : World → World → Prop.
Hypothesis R_refl : ∀ w, R w w.
Hypothesis R_trans : ∀ w1 w2 w3, R w1 w2 → R w2 w3 → R w1 w3.
Hypothesis R_random : keeps R Math_random.
Hypothesis R_ts_cache_set : ∀ traitType l, keeps R (ts_cache_set traitType l).
Hypothesis R_getAvailableTraits : ∀ traitType, keeps R (getAvailableTraits traitType).

Variable config : GeneratorConfig.
Hypothesis R_applyDependentTraits :
  ∀ selectedTraits, keeps R (applyDependentTraits config selectedTraits).

Lemma keeps_ret {A} (a : A) : keeps R (ret a).
Proof using R_refl. intros w. apply R_refl. Qed.

Lemma keeps_throw {A} (e : GeneratorError) : keeps R (@throw A e).
Proof using R_refl. intros w. apply R_refl. Qed.

Lemma keeps_bind {A B} (m : M A) (k : A → M B) :
  keeps R m → (∀ a, keeps R (k a)) → keeps R (bind m k).
Proof using R_trans.
  intros Hm Hk w. unfold bind. specialize (Hm w).
  destruct (m w) as [[a|e] w1]; cbn in *; [|done].
  eapply R_trans; [exact Hm | apply Hk].
Qed.

Lemma keeps_readArray (l : loc) : keeps R (readArray l).
Proof using R_refl. intros w. apply R_refl. Qed.

Lemma keeps_applyForcedPairings (traitType : string) (selectedTraits : list Trait) :
  keeps R (applyForcedPairings config traitType selectedTraits).
Proof using R_refl R_trans R_getAvailableTraits.
  unfold applyForcedPairings.
  destruct (forced_pairings config) as [entries|]; [|apply keeps_ret].
  induction entries as [|[triggerKey forcedKey] rest IH];
    cbn [applyForcedPairings_entries]; cbv zeta; [apply keeps_ret|].
  destruct (existsb _ selectedTraits); [|done].
  destruct (String.eqb _ traitType); [|done].
  destruct (negb _); [|done].
  apply keeps_bind; [apply R_getAvailableTraits|]. intros l.
  apply keeps_bind; [apply keeps_readArray|]. intros available.
  destruct (List.find _ available); [apply keeps_ret | done].
Qed.

Lemma keeps_weightedRandomSelect (traits : list Trait) :
  keeps R (weightedRandomSelect traits).
Proof using R_refl R_trans R_random.
  unfold weightedRandomSelect. destruct traits as [|first [|second rest]].
  - apply keeps_throw.
  - apply keeps_ret.
  - apply keeps_bind; [apply R_random|]. intros r.
    destruct (weightedScan _ _); apply keeps_ret.
Qed.

Lemma keeps_selectForLayer (traitType : string) (selectedTraits : list Trait) :
  keeps R (selectForLayer config traitType selectedTraits).
Proof using All.
  unfold selectForLayer.
  apply keeps_bind; [intros w; apply R_refl|]. intros cached.
  apply keeps_bind.
  { destruct cached; [apply keeps_ret|].
    apply keeps_bind; [apply R_getAvailableTraits|]. intros l.
    apply keeps_bind; [apply R_ts_cache_set|]. intros _. apply keeps_ret. }
  intros traits.
  apply keeps_bind; [apply keeps_applyForcedPairings|].
  intros [forced|]; [apply keeps_ret|].
  apply keeps_bind; [apply R_applyDependentTraits|].
  intros dependentTraits. destruct (_ && _); [apply keeps_ret|].
  apply keeps_bind; [apply keeps_readArray|]. intros available.
  destruct (length _ =? 0)%nat; [apply keeps_throw|].
  apply keeps_bind; [apply keeps_weightedRandomSelect|].
  intros t. apply keeps_ret.
Qed.

Lemma keeps_generateSingleCombination (n : nat) :
  keeps R (generateSingleCombination config n).
Proof using All.
  unfold generateSingleCombination.
  apply keeps_bind; [|intros; apply keeps_ret].
  generalize (@nil Trait).
  induction (trait_processing_order config) as [|traitType rest IH]; intros selected;
    cbn [selectLayers]; [apply keeps_ret|].
  apply keeps_bind; [apply keeps_selectForLayer | done].
Qed.

Lemma keeps_generateCombinations (count : nat) (used : gset string) (w : World) :
  ∃ r w', generateCombinations config count used w = Some (r, w') ∧ R w w'.
Proof using All.
  destruct (generateCombinationsWith_all
              (fun n => settle (generateSingleCombination config n))
              (R w) (fun _ => True)) with (count := count) (used := used) (w := w)
    as (r & w' & Hgen & HR & _); [| apply R_refl | by exists r, w'].
  intros n w0 Hw0. split.
  - eapply R_trans; [exact Hw0|].
    pose proof (keeps_generateSingleCombination n w0) as Hstep. unfold settle.
    by destruct (generateSingleCombination config n w0) as [[c|e] w1].
  - by destruct (settle _ w0).1.
Qed.

End CatalogFrame.

Lemma catalog_extends_refl (w : World) : catalog_extends w w.
Proof. split; [done|]. intros l arr Hl. exists []. by rewrite app_nil_r. Qed.

Lemma catalog_extends_trans (w1 w2 w3 : World) :
  catalog_extends w1 w2 → catalog_extends w2 w3 → catalog_extends w1 w3.
Proof.
  intros [Hc12 Hh12] [Hc23 Hh23]. split; [by eauto|].
  intros l arr Hl. destruct (Hh12 l arr Hl) as (extra & Hl2).
  destruct (Hh23 l _ Hl2) as (extra' & Hl3).
  exists (extra ++ extra'). by rewrite app_assoc.
Qed.

Lemma catalog_kept_extends (w w' : World) : catalog_kept w w' → catalog_extends w w'.
Proof.
  intros [Hc Hh]. split; [done|]. intros l arr Hl. exists [].
  rewrite app_nil_r. by apply Hh.
Qed.

Lemma catalog_kept_refl (w : World) : catalog_kept w w.
Proof. by split. Qed.

Lemma catalog_kept_same (w w' : World) :
  heap w' = heap w → layerProcessor w' = layerProcessor w → catalog_kept w w'.
Proof. intros Hh Hlp. split; intros ? ? ?; by rewrite ?Hh, ?Hlp. Qed.

Lemma catalog_kept_trans (w1 w2 w3 : World) :
  catalog_kept w1 w2 → catalog_kept w2 w3 → catalog_kept w1 w3.
Proof. intros [Hc12 Hh12] [Hc23 Hh23]. split; eauto. Qed.

Lemma catalog_kept_getAvailableTraits (traitType : string) :
  keeps catalog_kept (getAvailableTraits traitType).
Proof.
  intros w. unfold getAvailableTraits, bind, getLayerProcessor. cbn [fst snd].
  destruct (lp_traitCache (layerProcessor w) !! traitType) as [cached|] eqn:Ecache;
    [apply catalog_kept_refl|].
  destruct (negb _); [apply catalog_kept_refl|].
  assert (Hcache : ∀ l0 traitType' l,
            lp_traitCache (layerProcessor w) !! traitType' = Some l →
            <[traitType := l0]> (lp_traitCache (layerProcessor w)) !! traitType'
            = Some l).
  { intros l0 traitType' l Hl. rewrite lookup_insert_ne; [done|]. congruence. }
  destruct (hierarchy (layerProcessor w) !! traitType) as [traitTypeTraits|];
    (split; cbn; [by apply Hcache|]).
  - intros l arr Hl. by rewrite lookup_app_l by by eapply lookup_lt_Some.
  - intros l arr Hl. apply lookup_lt_Some in Hl as Hlt.
    rewrite !lookup_app_l; [done | done | rewrite length_app; lia].
Qed.

Lemma catalog_extends_applyDependentTraits (config : GeneratorConfig)
    (selectedTraits : list Trait) :
  keeps catalog_extends (applyDependentTraits config selectedTraits).
Proof.
  unfold applyDependentTraits.
  destruct (dependent_traits config) as [entries|];
    [|intros w; apply catalog_extends_refl].
  generalize (@nil Trait).
  induction entries as [|[triggerKey dependentKey] rest IH]; intros acc;
    cbn [applyDependentTraits_entries]; cbv zeta;
    [intros w; apply catalog_extends_refl|].
  destruct (existsb _ selectedTraits); [|done].
  destruct (negb _); [|done].
  apply (keeps_bind catalog_extends catalog_extends_trans).
  { intros w. apply catalog_kept_extends, catalog_kept_getAvailableTraits. }
  intros l. apply (keeps_bind catalog_extends catalog_extends_trans).
  { intros w. apply catalog_extends_refl. }
  intros candidates. destruct (List.find _ candidates) as [t|]; [|done].
  apply (keeps_bind catalog_extends catalog_extends_trans); [|done].
  intros w. split; [done|]. intros l0 arr Hl0. unfold pushArray. cbn [snd heap].
  destruct (decide (l = l0)) as [->|Hne].
  - rewrite list_lookup_alter_eq, Hl0. by exists [t].
  - rewrite list_lookup_alter_ne by done. exists []. by rewrite app_nil_r.
Qed.

Lemma run_ok_generateSingleCombination (config : GeneratorConfig) (n : nat) (w : World) :
  world_ok w →
  run_ok (generateSingleCombination config n) w (fun _ _ => True).
Proof.
  intros Hw. unfold generateSingleCombination.
  eapply run_ok_bind; [by apply run_ok_selectLayers|].
  intros selected w1 Hw1 _ _. by apply run_ok_ret.
Qed.

Lemma generateCombinations_heap_grows (config : GeneratorConfig) (count : nat)
    (used : gset string) (w : World) :
  world_ok w →
  ∃ r w', generateCombinations config count used w = Some (r, w') ∧ heap_grows w w'.
Proof.
  intros Hw.
  destruct (generateCombinationsWith_all
              (fun n => settle (generateSingleCombination config n))
              (fun w' => world_ok w' ∧ heap_grows w w') (fun _ => True))
    with (count := count) (used := used) (w := w)
    as (r & w' & Hgen & [_ Hg] & _);
    [| split; [done | apply heap_grows_refl] | by exists r, w'].
  intros n w0 [Hw0 Hg0].
  destruct (run_ok_generateSingleCombination config n w0 Hw0) as (Hw1 & Hg1 & _).
  unfold settle.
  destruct (generateSingleCombination config n w0) as [[c|e] w1]; cbn in *;
    eauto using heap_grows_trans.
Qed.

(** X19. Generation never removes, replaces or reorders what the catalog
    holds: after a call, every list that was cached is the same list followed,
    at most, by repeats of traits it already held. *)
Theorem X19_cached_lists_only_gain_repeats (config : GeneratorConfig) (count : nat)
    (used : gset string) (w : World) :
  world_ok w →
  ∃ r w',
    generateCombinations config count used w = Some (r, w')
    ∧ ∀ traitType arr,
        cachedTraits w traitType = Some arr →
        ∃ extra, cachedTraits w' traitType = Some (arr ++ extra)
                 ∧ ∀ t, t ∈ extra → t ∈ arr.
Proof.
  intros Hw.
  destruct (keeps_generateCombinations catalog_extends catalog_extends_refl
              catalog_extends_trans) with (config := config) (count := count)
              (used := used) (w := w) as (r & w' & Hgen & Hcache & Hheap).
  - intros w0. by apply catalog_kept_extends, catalog_kept_same.
  - intros traitType l w0. by apply catalog_kept_extends, catalog_kept_same.
  - intros traitType w0. apply catalog_kept_extends, catalog_kept_getAvailableTraits.
  - apply catalog_extends_applyDependentTraits.
  - destruct (generateCombinations_heap_grows config count used w Hw)
      as (r2 & w2 & Hgen2 & Hgrows).
    rewrite Hgen in Hgen2. injection Hgen2 as <- <-.
    exists r, w'. split; [done|]. intros traitType arr. unfold cachedTraits.
    destruct (lp_traitCache (layerProcessor w) !! traitType) as [l|] eqn:El; [|done].
    intros Harr. rewrite (Hcache traitType l El).
    destruct (Hheap l arr Harr) as (extra & Hextra).
    exists extra. split; [done|]. intros t Ht.
    destruct (Hgrows l arr Harr) as (arr' & Harr' & Hsub).
    apply Hsub. rewrite Hextra in Harr'. injection Harr' as <-.
    apply elem_of_app. by right.
Qed.

Lemma X19_cached_lists_only_gain_repeats_witness :
  let w1 := (settle (generateSingleCombination Examples.config_dependent 1)
                    Examples.world_dep).2 in
  world_ok w1
  ∧ ∃ r w' extra,
      generateCombinations Examples.config_dependent 2 ∅ w1 = Some (r, w')
      ∧ cachedTraits w' "body"
        = Some ([Examples.human; Examples.robot; Examples.robot] ++ extra).
Proof.
  intros w1.
  assert (Hw1 : world_ok w1).
  { apply (generateSingleCombination_spec Examples.config_dependent 1
             Examples.world_dep).
    split; intros traitType l Hl; cbn in Hl; by rewrite lookup_empty in Hl. }
  split; [exact Hw1|].
  destruct (X19_cached_lists_only_gain_repeats Examples.config_dependent 2 ∅ w1 Hw1)
    as (r & w' & Hgen & Hcached).
  destruct (Hcached "body" [Examples.human; Examples.robot; Examples.robot])
    as (extra & Hextra & _); [vm_compute; reflexivity|].
  exists r, w', extra. split; [exact Hgen | exact Hextra].
Defined.

(** X20. When no dependent trait is configured, generation treats the
    catalog as read-only: after a call every list that was cached is cached
    still and holds exactly what it held. *)
Theorem X20_catalog_read_only_without_dependents (config : GeneratorConfig)
    (count : nat) (used : gset string) (w : World) :
  dependent_traits config = None →
  ∃ r w',
    generateCombinations config count used w = Some (r, w')
    ∧ ∀ traitType arr,
        cachedTraits w traitType = Some arr → cachedTraits w' traitType = Some arr.
Proof.
  intros Hnone.
  destruct (keeps_generateCombinations catalog_kept catalog_kept_refl
              catalog_kept_trans) with (config := config) (count := count)
              (used := used) (w := w) as (r & w' & Hgen & Hcache & Hheap).
  - intros w0. by apply catalog_kept_same.
  - intros traitType l w0. by apply catalog_kept_same.
  - apply catalog_kept_getAvailableTraits.
  - intros selected w0. unfold applyDependentTraits. rewrite Hnone.
    apply catalog_kept_refl.
  - exists r, w'. split; [done|]. intros traitType arr. unfold cachedTraits.
    destruct (lp_traitCache (layerProcessor w) !! traitType) as [l|] eqn:El; [|done].
    intros Harr. rewrite (Hcache traitType l El). by apply Hheap.
Qed.

Lemma X20_catalog_read_only_without_dependents_witness :
  let w1 := (settle (generateSingleCombination Examples.config_incompatible 1)
                    Examples.world3).2 in
  ∃ r w',
    generateCombinations Examples.config_incompatible 2 ∅ w1 = Some (r, w')
    ∧ cachedTraits w' "body" = Some [Examples.robot].
Proof.
  intros w1.
  destruct (X20_catalog_read_only_without_dependents Examples.config_incompatible
              2 ∅ w1 eq_refl) as (r & w' & Hgen & Hcached).
  exists r, w'. split; [exact Hgen|]. apply Hcached. vm_compute. reflexivity.
Defined.

(** ** Frames of a leaf, continued *)

Lemma loopFrames_bounds (originalFrames : list string) (i n : nat) :
  (length (loopFrames originalFrames i n) ≤ n)%nat
  ∧ ∀ f, f ∈ loopFrames originalFrames i n → f ∈ originalFrames ∧ JS.truthy f = true.
Proof.
  revert i. induction n as [|n IH]; intros i; cbn [loopFrames].
  { split; [done|]. by intros f ?%elem_of_nil. }
  destruct (IH (S i)) as [Hlen Hin].
  destruct (originalFrames !! (i mod length originalFrames)%nat) as [frame|] eqn:E;
    [|split; [lia | done]].
  destruct (JS.truthy frame) eqn:Ht; [|split; [lia | done]].
  split; [cbn; lia|]. intros f [->|Hf]%elem_of_cons; [|by apply Hin].
  split; [by eapply list_elem_of_lookup_2 | done].
Qed.

(** X21. Frame normalisation never invents or over-produces frames: for
    every input the result has at most the required number of entries, each of
    them one of the original frames; an empty leaf stays empty, and a leaf with
    enough frames keeps exactly its first [required] ones. *)
Theorem X21_frame_normalisation_bounds (requiredFrameCount : nat)
    (originalFrames : list string) :
  let normalized := loopFramesToRequiredCount requiredFrameCount originalFrames in
  (length normalized ≤ requiredFrameCount)%nat
  ∧ (∀ f, f ∈ normalized → f ∈ originalFrames)
  ∧ (originalFrames = [] → normalized = [])
  ∧ ((requiredFrameCount ≤ length originalFrames)%nat →
     normalized = take requiredFrameCount originalFrames).
Proof.
  intros normalized. subst normalized. unfold loopFramesToRequiredCount.
  destruct (Nat.eqb_spec (length originalFrames) 0) as [Hz|Hz].
  { apply length_zero_iff_nil in Hz as ->.
    split; [cbn; lia|]. split; [done|]. split; [done|].
    intros _. by destruct requiredFrameCount. }
  destruct (Nat.leb_spec requiredFrameCount (length originalFrames)) as [Hle|Hlt].
  - split; [rewrite length_take; lia|].
    split; [intros f (j & Hj & _)%elem_of_take; by eapply list_elem_of_lookup_2|].
    split; [by intros ->|done].
  - destruct (loopFrames_bounds originalFrames 0 requiredFrameCount) as [Hlen Hin].
    split; [done|]. split; [intros f Hf; by apply Hin|].
    split; [by intros ->|lia].
Qed.

(** X22. Frame normalisation is idempotent on frame names: normalising an
    already normalised list gives the same list. *)
Theorem X22_frame_normalisation_idempotent (requiredFrameCount : nat)
    (originalFrames : list string) :
  Forall (fun f => JS.truthy f = true) originalFrames →
  loopFramesToRequiredCount requiredFrameCount
    (loopFramesToRequiredCount requiredFrameCount originalFrames)
  = loopFramesToRequiredCount requiredFrameCount originalFrames.
Proof.
  intros Hnamed.
  destruct originalFrames as [|f0 rest] eqn:Eframes; [done|]. rewrite <- Eframes in *.
  assert (Hne : originalFrames ≠ []) by by rewrite Eframes.
  assert (Hlen : length (loopFramesToRequiredCount requiredFrameCount originalFrames)
                 = requiredFrameCount).
  { unfold loopFramesToRequiredCount.
    destruct (Nat.eqb_spec (length originalFrames) 0) as [Hz|Hz].
    { by apply length_zero_iff_nil in Hz. }
    destruct (Nat.leb_spec requiredFrameCount (length originalFrames)).
    - rewrite length_take. lia.
    - by apply loopFrames_length. }
  unfold loopFramesToRequiredCount at 1. rewrite Hlen.
  destruct (Nat.eqb_spec requiredFrameCount 0) as [->|Hr].
  { symmetry. by apply length_zero_iff_nil. }
  rewrite Nat.leb_refl. apply firstn_all2. lia.
Qed.

Lemma X22_frame_normalisation_idempotent_witness :
  loopFramesToRequiredCount 7
    (loopFramesToRequiredCount 7 ["f0.png"; "f1.png"; "f2.png"])
  = loopFramesToRequiredCount 7 ["f0.png"; "f1.png"; "f2.png"].
Proof.
  apply X22_frame_normalisation_idempotent. repeat constructor.
Defined.

Lemma insertByNumber_perm (x : string) (xs : list string) :
  insertByNumber x xs ≡ₚ x :: xs.
Proof.
  induction xs as [|y ys IH]; cbn [insertByNumber]; [done|].
  destruct (getNumber x <=? getNumber y)%nat; [done|].
  rewrite IH. apply Permutation_swap.
Qed.

Lemma insertByNumber_sorted (x : string) (xs : list string) :
  StronglySorted (fun a b => (getNumber a ≤ getNumber b)%nat) xs →
  StronglySorted (fun a b => (getNumber a ≤ getNumber b)%nat) (insertByNumber x xs).
Proof.
  induction 1 as [|y ys Hys IH Hy]; cbn [insertByNumber].
  { by repeat constructor. }
  destruct (Nat.leb_spec (getNumber x) (getNumber y)) as [Hle|Hlt].
  - constructor; [by constructor|]. constructor; [done|].
    eapply Forall_impl; [exact Hy|]. cbn. intros z Hz. lia.
  - constructor; [done|]. rewrite insertByNumber_perm. constructor; [lia | done].
Qed.

Lemma getImageFiles_perm (entries : list string) :
  getImageFiles entries
  ≡ₚ List.filter
       (fun entry => existsb (endsWith (toLowerCase entry)) SUPPORTED_IMAGE_FORMATS)
       entries.
Proof.
  unfold getImageFiles.
  generalize (List.filter
                (fun entry => existsb (endsWith (toLowerCase entry))
                                      SUPPORTED_IMAGE_FORMATS) entries).
  intros images. induction images as [|x images IH]; cbn [foldr]; [done|].
  by rewrite insertByNumber_perm, IH.
Qed.

(** X23. [getImageFiles] returns exactly the entries whose lower-cased name
    ends in a supported extension, each as often as it is listed, arranged by
    non-decreasing frame number ([getNumber]). *)
Theorem X23_getImageFiles_sorted (entries : list string) :
  getImageFiles entries
  ≡ₚ List.filter
       (fun entry => existsb (endsWith (toLowerCase entry)) SUPPORTED_IMAGE_FORMATS)
       entries
  ∧ StronglySorted (fun a b => (getNumber a ≤ getNumber b)%nat)
                   (getImageFiles entries).
Proof.
  split; [apply getImageFiles_perm|]. unfold getImageFiles.
  generalize (List.filter
                (fun entry => existsb (endsWith (toLowerCase entry))
                                      SUPPORTED_IMAGE_FORMATS) entries).
  intros images. induction images as [|x images IH]; cbn [foldr].
  - constructor.
  - by apply insertByNumber_sorted.
Qed.

(** X24. The test that decides whether a directory is a leaf agrees with
    the listing of its frames: [hasImageFiles] holds exactly when
    [getImageFiles] finds a frame, and then the leaf is normalised to exactly
    the required number of frames. *)
Theorem X24_leaf_test_agrees_with_frames (requiredFrameCount : nat)
    (entries : list string) :
  (hasImageFiles entries = true ↔ getImageFiles entries ≠ [])
  ∧ (hasImageFiles entries = true →
     length (loopFramesToRequiredCount requiredFrameCount (getImageFiles entries))
     = requiredFrameCount).
Proof.
  assert (Hiff : hasImageFiles entries = true ↔ getImageFiles entries ≠ []).
  { pose proof (getImageFiles_perm entries) as Hperm.
    unfold hasImageFiles. rewrite existsb_true. split.
    - intros (x & Hx & Hf) Hnil. rewrite Hnil in Hperm.
      apply Permutation_nil in Hperm.
      assert (Hin : x ∈ List.filter
                (fun entry => existsb (endsWith (toLowerCase entry))
                                      SUPPORTED_IMAGE_FORMATS) entries)
        by by apply filter_elem.
      rewrite Hperm in Hin. by apply elem_of_nil in Hin.
    - intros Hne. destruct (getImageFiles entries) as [|x rest] eqn:E; [done|].
      assert (Hin : x ∈ List.filter
                (fun entry => existsb (endsWith (toLowerCase entry))
                                      SUPPORTED_IMAGE_FORMATS) entries).
      { rewrite <- Hperm. by left. }
      apply filter_elem in Hin. by exists x. }
  split; [exact Hiff|]. intros Hhas. by apply parsed_leaf_has_required_frames, Hiff.
Qed.
